(** * EventLoopSimulator: the scheduling order of the phase-based event loop

    A shallow embedding of [event-loop-simulator.js] and the properties of
    its draining protocol.

    The JavaScript class keeps eight arrays of callbacks in [this.queues]
    and a flag [this.running].  Its methods return nothing, mutate the arrays
    in place and may be left by an exception, so every method is a function
    from the state before the call to a [result]: the state after a normal
    return, the exception with the state at the throw, or [Timeout] when a
    [while] loop was still running after [fuel] iterations. *)

From Stdlib Require Import List String Bool Arith Lia.
Import ListNotations.

Set Implicit Arguments.

(** The strings the phases are logged under. *)
Module QUEUE_NAMES.
Definition NEXT_TICK : string := "nextTick".
Definition MICROTASKS : string := "microtasks".
Definition TIMERS : string := "timers".
Definition PENDING_CALLBACKS : string := "pendingCallbacks".
Definition IDLE_PREPARE : string := "idlePrepare".
Definition POLL : string := "poll".
Definition CHECK : string := "check".
Definition CLOSE_CALLBACKS : string := "closeCallbacks".
End QUEUE_NAMES.
Import QUEUE_NAMES.

(** ** Values, callbacks and queues *)

Section Scheduler.

(** [cb] names the function objects the caller creates, [W] is whatever
    state of the caller those closures capture. *)
Variables cb W : Type.

(** Anything can be passed to [push]: a function or not. *)
Inductive value : Type :=
| Fn (c : cb)
| Undefined
| Num (n : nat)
| Str (s : string).

Definition invocable (v : value) : bool :=
  match v with Fn _ => true | _ => false end.

Inductive exn : Type :=
| TypeError (msg : string)
| UserError (msg : string).

(** The eight arrays of [this.queues]; [runPhase] receives one of them by
    reference, which is the name of its field here: the arrays are created
    once by the constructor and never reassigned. *)
Inductive qref : Type :=
| QNextTick | QMicrotasks | QTimers | QPendingCallbacks
| QIdlePrepare | QPoll | QCheck | QCloseCallbacks.

Record Queues : Type := mkQueues {
  nextTick : list value;
  microtasks : list value;
  timers : list value;
  pendingCallbacks : list value;
  idlePrepare : list value;
  poll : list value;
  check : list value;
  closeCallbacks : list value
}.

Record EventLoopSimulator : Type := mkSim {
  queues : Queues;
  running : bool
}.

(** [constructor()] *)
Definition constructor : EventLoopSimulator :=
  mkSim (mkQueues [] [] [] [] [] [] [] []) false.

Definition get (q : qref) (qs : Queues) : list value :=
  match q with
  | QNextTick => nextTick qs
  | QMicrotasks => microtasks qs
  | QTimers => timers qs
  | QPendingCallbacks => pendingCallbacks qs
  | QIdlePrepare => idlePrepare qs
  | QPoll => poll qs
  | QCheck => check qs
  | QCloseCallbacks => closeCallbacks qs
  end.

Definition set (q : qref) (l : list value) (qs : Queues) : Queues :=
  match q with
  | QNextTick =>
      mkQueues l (microtasks qs) (timers qs) (pendingCallbacks qs)
               (idlePrepare qs) (poll qs) (check qs) (closeCallbacks qs)
  | QMicrotasks =>
      mkQueues (nextTick qs) l (timers qs) (pendingCallbacks qs)
               (idlePrepare qs) (poll qs) (check qs) (closeCallbacks qs)
  | QTimers =>
      mkQueues (nextTick qs) (microtasks qs) l (pendingCallbacks qs)
               (idlePrepare qs) (poll qs) (check qs) (closeCallbacks qs)
  | QPendingCallbacks =>
      mkQueues (nextTick qs) (microtasks qs) (timers qs) l
               (idlePrepare qs) (poll qs) (check qs) (closeCallbacks qs)
  | QIdlePrepare =>
      mkQueues (nextTick qs) (microtasks qs) (timers qs) (pendingCallbacks qs)
               l (poll qs) (check qs) (closeCallbacks qs)
  | QPoll =>
      mkQueues (nextTick qs) (microtasks qs) (timers qs) (pendingCallbacks qs)
               (idlePrepare qs) l (check qs) (closeCallbacks qs)
  | QCheck =>
      mkQueues (nextTick qs) (microtasks qs) (timers qs) (pendingCallbacks qs)
               (idlePrepare qs) (poll qs) l (closeCallbacks qs)
  | QCloseCallbacks =>
      mkQueues (nextTick qs) (microtasks qs) (timers qs) (pendingCallbacks qs)
               (idlePrepare qs) (poll qs) (check qs) l
  end.

Definition qref_eqb (a b : qref) : bool :=
  match a, b with
  | QNextTick, QNextTick | QMicrotasks, QMicrotasks | QTimers, QTimers
  | QPendingCallbacks, QPendingCallbacks | QIdlePrepare, QIdlePrepare
  | QPoll, QPoll | QCheck, QCheck | QCloseCallbacks, QCloseCallbacks => true
  | _, _ => false
  end.

(** The six phases are the queues other than the two priority queues. *)
Definition is_phase (q : qref) : bool :=
  match q with QNextTick | QMicrotasks => false | _ => true end.

(** ** What a run leaves behind

    [Log] is a line written by [log].  The other events are ghost events:
    [Push] and [Shift] record each [push] and each [shift()] together with
    the item, [Shift] also keeps the queues as they are when the item is
    invoked, and [Threw] records that an invocation ended by throwing. *)
Inductive event : Type :=
| Log (phase msg : string)
| Push (q : qref) (v : value)
| Shift (q : qref) (v : value) (at_call : Queues)
| Threw (e : exn).

Record State : Type := mkState {
  this : EventLoopSimulator;
  world : W;
  trace : list event
}.

Inductive result : Type :=
| Done (s : State)
| Raised (e : exn) (s : State)
| Timeout.

Definition M : Type := State -> result.

Definition ret : M := fun s => Done s.

(** [a; b] of JavaScript: [b] runs only when [a] returned. *)
Definition seq (a b : M) : M :=
  fun s => match a s with Done s' => b s' | r => r end.

Definition qs (s : State) : Queues := queues (this s).

Definition emit (e : event) (s : State) : State :=
  mkState (this s) (world s) (trace s ++ [e]).

Definition with_queues (f : Queues -> Queues) (s : State) : State :=
  mkState (mkSim (f (qs s)) (running (this s))) (world s) (trace s).

Definition with_world (w : W) (s : State) : State :=
  mkState (this s) w (trace s).

(** What one invocation of a function object does to the scheduler: the
    enqueue calls it makes, in order, the caller's state it leaves, and
    whether it ends by throwing.  Function objects reach the scheduler only
    through the eight enqueue methods. *)
Record effect : Type := mkEffect {
  enqueues : list (qref * value);
  world' : W;
  throws : option exn
}.

Variable body : cb -> W -> effect.

(** ** The methods of the class *)

(** [console.log(`[${phase}] ${msg}`)] *)
Definition render (phase msg : string) : string :=
  ("[" ++ phase ++ "] " ++ msg)%string.

Definition log (phase msg : string) : M :=
  fun s => Done (emit (Log phase msg) s).

(** [this.queues.<q>.push(callback)] *)
Definition push (q : qref) (callback : value) : M :=
  fun s =>
    Done (emit (Push q callback)
               (with_queues (fun x => set q (get q x ++ [callback]) x) s)).

Definition queueNextTick (callback : value) : M := push QNextTick callback.
Definition queueMicrotask (callback : value) : M := push QMicrotasks callback.
Definition queueTimer (callback : value) : M := push QTimers callback.
Definition queuePendingCallback (callback : value) : M :=
  push QPendingCallbacks callback.
Definition queueIdlePrepare (callback : value) : M :=
  push QIdlePrepare callback.
Definition queuePoll (callback : value) : M := push QPoll callback.
Definition queueCheck (callback : value) : M := push QCheck callback.
Definition queueCloseCallback (callback : value) : M :=
  push QCloseCallbacks callback.

(** The enqueue method that fills queue [q]. *)
Definition enqueue (q : qref) : value -> M :=
  match q with
  | QNextTick => queueNextTick
  | QMicrotasks => queueMicrotask
  | QTimers => queueTimer
  | QPendingCallbacks => queuePendingCallback
  | QIdlePrepare => queueIdlePrepare
  | QPoll => queuePoll
  | QCheck => queueCheck
  | QCloseCallbacks => queueCloseCallback
  end.

Fixpoint enqueue_all (l : list (qref * value)) : M :=
  match l with
  | [] => ret
  | (q, v) :: l' => seq (enqueue q v) (enqueue_all l')
  end.

(** [name()] where the variable [name] holds [v]: a function object runs its
    body, anything else is a [TypeError]. *)
Definition call (name : string) (v : value) : M :=
  fun s =>
    match v with
    | Fn c =>
        let e := body c (world s) in
        seq (enqueue_all (enqueues e))
            (fun s1 =>
               match throws e with
               | None => Done (with_world (world' e) s1)
               | Some x => Raised x (emit (Threw x) (with_world (world' e) s1))
               end) s
    | _ =>
        let x := TypeError (name ++ " is not a function") in
        Raised x (emit (Threw x) s)
    end.

(** The state right after [this.queues.<q>.shift()] returned [v]. *)
Definition shifted (q : qref) (v : value) (rest : list value) (s : State)
  : State :=
  let s1 := with_queues (set q rest) s in
  emit (Shift q v (qs s1)) s1.

(** [while (this.queues.<q>.length > 0)
       { const task = this.queues.<q>.shift(); task(); }] *)
Fixpoint drain (q : qref) (fuel : nat) (s : State) {struct fuel} : result :=
  match get q (qs s) with
  | [] => Done s
  | task :: rest =>
      match fuel with
      | 0 => Timeout
      | S fuel' => seq (call "task" task) (drain q fuel') (shifted q task rest s)
      end
  end.

Definition runNextTick (fuel : nat) : M :=
  seq (log NEXT_TICK "nextTick phase started")
      (seq (drain QNextTick fuel)
           (log NEXT_TICK "nextTick phase completed")).

Definition runMicrotasks (fuel : nat) : M :=
  seq (log MICROTASKS "Microtasks phase started")
      (seq (drain QMicrotasks fuel)
           (log MICROTASKS "Microtasks phase completed")).

Definition runNextTickAndMicrotasks (fuel : nat) : M :=
  seq (runNextTick fuel) (runMicrotasks fuel).

(** [while (queue.length > 0)
       { const callback = queue.shift(); callback(); this.runMicrotasks(); }] *)
Fixpoint phase_loop (queue : qref) (fuel : nat) (s : State) {struct fuel}
  : result :=
  match get queue (qs s) with
  | [] => Done s
  | callback :: rest =>
      match fuel with
      | 0 => Timeout
      | S fuel' =>
          seq (call "callback" callback)
              (seq (runMicrotasks fuel') (phase_loop queue fuel'))
              (shifted queue callback rest s)
      end
  end.

Definition runPhase (phase : string) (queue : qref) (fuel : nat) : M :=
  seq (runNextTick fuel)
      (seq (log phase (">> " ++ phase ++ " phase started"))
           (seq (phase_loop queue fuel)
                (log phase (">> " ++ phase ++ " phase completed")))).

Definition tick (fuel : nat) : M :=
  seq (runPhase TIMERS QTimers fuel)
  (seq (runPhase PENDING_CALLBACKS QPendingCallbacks fuel)
  (seq (runPhase IDLE_PREPARE QIdlePrepare fuel)
  (seq (runPhase POLL QPoll fuel)
  (seq (runPhase CHECK QCheck fuel)
       (runPhase CLOSE_CALLBACKS QCloseCallbacks fuel))))).

End Scheduler.

Arguments Undefined {cb}.
Arguments Num {cb} n.
Arguments Str {cb} s.
Arguments constructor {cb}.
Arguments Timeout {cb W}.
Arguments Log {cb} phase msg.
Arguments Threw {cb} e.

(** ** Scripted callbacks

    Closures that only enqueue and possibly throw, written out as data: a
    label, the enqueue calls the closure makes, and whether it then throws.
    They capture no state of their own ([W] is [unit]). *)
Module Script.

#[warnings="-register-all"]
Inductive job : Type :=
| Job (label : string) (acts : list (qref * value job)) (fails : bool).

Definition label_of (j : job) : string :=
  match j with Job l _ _ => l end.

Definition body (j : job) (w : unit) : effect job unit :=
  match j with
  | Job l acts fails =>
      mkEffect acts w (if fails then Some (UserError l) else None)
  end.

(** The number of invocations a job stands for: itself and all it pushes. *)
Fixpoint weight (j : job) : nat :=
  match j with
  | Job _ acts _ =>
      S ((fix pushed (l : list (qref * value job)) : nat :=
            match l with
            | [] => 0
            | (_, Fn j') :: l' => weight j' + pushed l'
            | _ :: l' => 1 + pushed l'
            end) acts)
  end.

(** A callback that only prints its label. *)
Definition say (l : string) : value job := Fn (Job l [] false).

(** A callback that enqueues and returns. *)
Definition doing (l : string) (acts : list (qref * value job)) : value job :=
  Fn (Job l acts false).

(** A callback that throws. *)
Definition failing (l : string) : value job := Fn (Job l [] true).

Definition start : State job unit := mkState constructor tt [].

(** The state after the caller made the enqueue calls [l] on a new
    simulator; the ghost events of the set-up are dropped. *)
Definition after_enqueues (l : list (qref * value job)) : State job unit :=
  match enqueue_all l start with
  | Done s => mkState (this s) tt []
  | _ => start
  end.

Definition name_of (v : value job) : string :=
  match v with
  | Fn j => label_of j
  | Undefined => "undefined"
  | Num _ => "number"
  | Str s => s
  end.

End Script.

(** The items invoked, in the order of their invocation. *)
Fixpoint calls {cb : Type} (tr : list (event cb)) : list (value cb) :=
  match tr with
  | [] => []
  | Shift _ v _ :: tr' => v :: calls tr'
  | _ :: tr' => calls tr'
  end.

(** ** Reading a trace *)

Section Traces.

Variables cb W : Type.

(** The items [push]ed into queue [q], in order. *)
Fixpoint pushes_of (q : qref) (tr : list (event cb)) : list (value cb) :=
  match tr with
  | [] => []
  | Push q' v :: tr' =>
      if qref_eqb q q' then v :: pushes_of q tr' else pushes_of q tr'
  | _ :: tr' => pushes_of q tr'
  end.

(** The items [shift]ed out of queue [q], in order. *)
Fixpoint shifts_of (q : qref) (tr : list (event cb)) : list (value cb) :=
  match tr with
  | [] => []
  | Shift q' v _ :: tr' =>
      if qref_eqb q q' then v :: shifts_of q tr' else shifts_of q tr'
  | _ :: tr' => shifts_of q tr'
  end.

(** The queues as they were each time an item left queue [q]. *)
Fixpoint snapshots_of (q : qref) (tr : list (event cb)) : list (Queues cb) :=
  match tr with
  | [] => []
  | Shift q' _ x :: tr' =>
      if qref_eqb q q' then x :: snapshots_of q tr' else snapshots_of q tr'
  | _ :: tr' => snapshots_of q tr'
  end.

(** The lines [runPhase] writes for its own phase start with [">> "]. *)
Definition is_mark (e : event cb) : bool :=
  match e with
  | Log _ msg => String.prefix ">> " msg
  | _ => false
  end.

Definition marks (tr : list (event cb)) : list (event cb) :=
  filter is_mark tr.

Definition started (phase : string) : event cb :=
  Log phase (">> " ++ phase ++ " phase started").

Definition completed (phase : string) : event cb :=
  Log phase (">> " ++ phase ++ " phase completed").

(** Every [shift] of the trace took its item from a queue in [allowed]. *)
Definition shift_from (allowed : qref -> bool) (e : event cb) : Prop :=
  match e with
  | Shift q _ _ => allowed q = true
  | _ => True
  end.

Definition sources (allowed : qref -> bool) (tr : list (event cb)) : Prop :=
  Forall (shift_from allowed) tr.

Definition only (q : qref) : qref -> bool := qref_eqb q.

Definition either (q1 q2 : qref) : qref -> bool :=
  fun q => qref_eqb q1 q || qref_eqb q2 q.

Definition no_queue : qref -> bool := fun _ => false.

(** The trace [d] is what FIFO queues allow: started on [a], each [Push]
    appends at the tail of its queue, each [Shift] removes the head of its
    queue and records the queues it leaves, and the queues end as [b]. *)
Inductive replays : Queues cb -> list (event cb) -> Queues cb -> Prop :=
| replays_nil a : replays a [] a
| replays_log a phase msg d b :
    replays a d b -> replays a (Log phase msg :: d) b
| replays_threw a e d b :
    replays a d b -> replays a (Threw e :: d) b
| replays_push a q v d b :
    replays (set q (get q a ++ [v]) a) d b -> replays a (Push q v :: d) b
| replays_shift a q v rest d b :
    get q a = v :: rest ->
    replays (set q rest a) d b ->
    replays a (Shift q v (set q rest a) :: d) b.

(** The state a call ends in, by return or by exception. *)
Definition final (r : result cb W) : option (State cb W) :=
  match r with
  | Done s => Some s
  | Raised _ s => Some s
  | Timeout => None
  end.

(** [s'] comes after [s] by the events [d]: the trace grew by [d], the
    queues changed as [d] says, the flag did not change, and items were
    taken only from the queues in [allowed]. *)
Definition follows (allowed : qref -> bool)
  (s : State cb W) (d : list (event cb)) (s' : State cb W) : Prop :=
  trace s' = trace s ++ d /\
  replays (qs s) d (qs s') /\
  running (this s') = running (this s) /\
  sources allowed d.

(** The exceptions recorded in a trace. *)
Fixpoint faults (tr : list (event cb)) : list exn :=
  match tr with
  | [] => []
  | Threw e :: tr' => e :: faults tr'
  | _ :: tr' => faults tr'
  end.

Definition outcome (r : result cb W) : list exn :=
  match r with
  | Raised e _ => [e]
  | _ => []
  end.

(** Whenever [m] ends, by return or by exception, the state it ends in
    follows the one it started in, and the trace records an exception
    exactly when [m] ended by that exception. *)
Definition obeys (allowed : qref -> bool) (m : M cb W) : Prop :=
  forall s s', final (m s) = Some s' ->
    exists d, follows allowed s d s' /\ faults d = outcome (m s).

(** A method that writes exactly the phase lines [mk] when it returns. *)
Definition writes (mk : list (event cb)) (m : M cb W) : Prop :=
  forall s s', m s = Done s' -> marks (trace s') = marks (trace s) ++ mk.

Definition any_queue : qref -> bool := fun _ => true.

End Traces.

Arguments no_queue / _.
Arguments started {cb} phase.
Arguments completed {cb} phase.

(** ** What the theorems state *)

Section Statements.

Variables cb W : Type.

(** [m] returns, having appended [v] at the end of queue [q] and changed
    neither another queue nor the flag. *)
Definition appends_only (q : qref) (v : value cb) (m : M cb W)
  (s : State cb W) : Prop :=
  exists s',
    m s = Done s' /\
    get q (qs s') = get q (qs s) ++ [v] /\
    (forall q', q' <> q -> get q' (qs s') = get q' (qs s)) /\
    running (this s') = running (this s) /\
    world s' = world s.

(** What one call of [runPhase] logs when nothing is queued. *)
Definition idle_phase (phase : string) : list (event cb) :=
  [ Log NEXT_TICK "nextTick phase started";
    Log NEXT_TICK "nextTick phase completed";
    started phase;
    completed phase ].

Definition idle_tick : list (event cb) :=
  idle_phase TIMERS ++ idle_phase PENDING_CALLBACKS ++
  idle_phase IDLE_PREPARE ++ idle_phase POLL ++
  idle_phase CHECK ++ idle_phase CLOSE_CALLBACKS.

Definition all_empty (x : Queues cb) : Prop :=
  forall q, get q x = [].

Variable body : cb -> W -> effect cb W.

(** [for (let i = 1; i <= k; i++) eventLoop.tick()], the driver's loop. *)
Fixpoint ticks (k : nat) (fuel : nat) : M cb W :=
  match k with
  | 0 => @ret cb W
  | S k' => seq (tick body fuel) (ticks k' fuel)
  end.

(** The queues at the removals of one phase: [nextTick] is empty at the
    first removal, [microtasks] at every later one. *)
Definition removals_ok (l : list (Queues cb)) : Prop :=
  match l with
  | [] => True
  | x :: l' => nextTick x = [] /\ Forall (fun y => microtasks y = []) l'
  end.

Definition is_push (e : event cb) : Prop :=
  match e with Push _ _ => True | _ => False end.

(** The run from [s] was cut short by the invocation of [v], taken from
    queue [q]: [st] is the state at that invocation, and the state [s'] the
    exception left is the one that invocation left: after the item was
    taken, the trace has the pushes of the invocation and its exception,
    and nothing else. *)
Definition thrown_by (s : State cb W) (e : exn) (s' : State cb W)
  (q : qref) (v : value cb) (st : State cb W) : Prop :=
  exists pre name d,
    trace st = trace s ++ pre ++ [Shift q v (qs st)] /\
    call body name v st = Raised e s' /\
    trace s' = trace st ++ d ++ [Threw e] /\
    Forall is_push d /\
    forall q', get q' (qs s') = get q' (qs st) ++ pushes_of q' d.

Definition raises_in_call (m : M cb W) : Prop :=
  forall s e s', m s = Raised e s' -> exists q v st, thrown_by s e s' q v st.

(** The items a list of enqueue calls puts into queue [q], in order. *)
Definition pushed_to (q : qref) (l : list (qref * value cb))
  : list (value cb) :=
  map snd (filter (fun p => qref_eqb q (fst p)) l).

Definition push_events (l : list (qref * value cb)) : list (event cb) :=
  map (fun p => Push (fst p) (snd p)) l.

(** What the invocation of [v] does when the caller's state is [w]: the
    enqueue calls [l] it makes and the record [th] of its exception.  A
    function object makes the calls of its body; any other value makes
    none and ends in a [TypeError]. *)
Definition invoked (v : value cb) (w : W) (l : list (qref * value cb))
  (th : list (event cb)) : Prop :=
  match v with
  | Fn c =>
      l = enqueues (body c w) /\
      th = match throws (body c w) with
           | Some e => [Threw e]
           | None => []
           end
  | _ => l = [] /\ exists msg, th = [Threw (TypeError msg)]
  end.

(** A piece of a trace: a log line, or one item taken out of a queue
    followed by exactly the enqueue calls of its invocation and the record
    of its exception. *)
Definition block (b : list (event cb)) : Prop :=
  (exists phase msg, b = [Log phase msg]) \/
  (exists q v x w l th,
      b = Shift q v x :: push_events l ++ th /\ invoked v w l th).

(** Every push of the trace is an enqueue call made by the item taken out
    just before it, and every such call is in the trace. *)
Definition explained (d : list (event cb)) : Prop :=
  exists bs, d = List.concat bs /\ Forall block bs.

(** Whenever [m] ends, what it added to the trace is explained. *)
Definition tells (m : M cb W) : Prop :=
  forall s s', final (m s) = Some s' ->
    exists d, trace s' = trace s ++ d /\ explained d.

(** One phase of a tick, from [s] to [s']: [runPhase] returned; it first
    took items from [nextTick] only, until that queue was empty, then wrote
    its start line, then took items from its own queue and from
    [microtasks] only, then wrote its end line.  Between its two lines it
    took out, in this order, every item its queue held in [s] and every
    item pushed into its queue until its end line; each item taken out was
    invoked, its enqueue calls following it in the trace; its queue is
    empty in [s'], and so is [microtasks] when an item of its queue was
    taken. *)
Definition phase_run (phase : string) (queue : qref) (fuel : nat)
  (s s' : State cb W) : Prop :=
  runPhase body phase queue fuel s = Done s' /\
  exists d1 d2,
    trace s' = trace s ++ d1 ++ started phase :: d2 ++ [completed phase] /\
    sources (only QNextTick) d1 /\
    shifts_of QNextTick d1 = nextTick (qs s) ++ pushes_of QNextTick d1 /\
    sources (either queue QMicrotasks) d2 /\
    shifts_of queue d2 = get queue (qs s) ++ pushes_of queue (d1 ++ d2) /\
    explained d1 /\ explained d2 /\
    marks d1 = [] /\ marks d2 = [] /\
    get queue (qs s') = [] /\
    (shifts_of queue d2 <> [] -> microtasks (qs s') = []).

(** The phase lines of one tick. *)
Definition tick_marks : list (event cb) :=
  [ started TIMERS; completed TIMERS;
    started PENDING_CALLBACKS; completed PENDING_CALLBACKS;
    started IDLE_PREPARE; completed IDLE_PREPARE;
    started POLL; completed POLL;
    started CHECK; completed CHECK;
    started CLOSE_CALLBACKS; completed CLOSE_CALLBACKS ].

(** One turn of the loop of [runPhase], started in [s] with [callback] at
    the head of the phase queue, in a loop that returns in [s']: the item
    is invoked and returns in [s1]; then [runMicrotasks] returns in [s2],
    having invoked all of [microtasks], with what the item pushed there and
    what was pushed meanwhile, and nothing else; then the loop goes on.  No
    item of [nextTick] is invoked in the loop: what is pushed there is still
    queued in [s']. *)
Definition turn (queue : qref) (callback : value cb) (rest : list (value cb))
  (fuel : nat) (s s' : State cb W) : Prop :=
  exists s1 s2 d1 d2 d3,
    call body "callback" callback (shifted queue callback rest s) = Done s1 /\
    trace s1 = trace s ++ Shift queue callback (set queue rest (qs s)) :: d1 /\
    runMicrotasks body fuel s1 = Done s2 /\
    trace s2 = trace s1 ++ d2 /\
    phase_loop body queue fuel s2 = Done s' /\
    trace s' = trace s2 ++ d3 /\
    microtasks (qs s1) = microtasks (qs s) ++ pushes_of QMicrotasks d1 /\
    sources (only QMicrotasks) d2 /\
    shifts_of QMicrotasks d2 = microtasks (qs s1) ++ pushes_of QMicrotasks d2 /\
    microtasks (qs s2) = [] /\
    shifts_of QNextTick (d1 ++ d2 ++ d3) = [] /\
    nextTick (qs s') = nextTick (qs s) ++ pushes_of QNextTick (d1 ++ d2 ++ d3).

(** *** Callbacks that stop pushing

    [wt] bounds the invocations a function object causes: it weighs more
    than all it pushes when invoked.  A value that is no function costs the
    one invocation that fails. *)
Variable wt : cb -> nat.

Definition vweight (v : value cb) : nat :=
  match v with Fn c => wt c | _ => 1 end.

Definition pushed_weight (l : list (qref * value cb)) : nat :=
  list_sum (map (fun p => vweight (snd p)) l).

Definition queue_weight (l : list (value cb)) : nat :=
  list_sum (map vweight l).

(** The invocations still to come from what is queued. *)
Definition load (x : Queues cb) : nat :=
  queue_weight (nextTick x) + queue_weight (microtasks x) +
  queue_weight (timers x) + queue_weight (pendingCallbacks x) +
  queue_weight (idlePrepare x) + queue_weight (poll x) +
  queue_weight (check x) + queue_weight (closeCallbacks x).

Definition finite_callbacks : Prop :=
  forall c w, pushed_weight (enqueues (body c w)) < wt c.

(** With fuel [n], [m] does not run out of fuel from a state of load at
    most [n], and does not increase the load. *)
Definition settles (n : nat) (m : M cb W) : Prop :=
  forall s, load (qs s) <= n ->
    m s <> Timeout /\
    forall s', final (m s) = Some s' -> load (qs s') <= load (qs s).

End Statements.

Arguments idle_phase {cb} phase.
Arguments idle_tick {cb}.
Arguments tick_marks {cb}.

(** ** Scenarios *)

(** [x] comes before [y] in [l]. *)
Definition precedes {A : Type} (x y : A) (l : list A) : Prop :=
  exists l1 l2 l3, l = l1 ++ x :: l2 ++ y :: l3.

Module Scenarios.
Import Script.

(** The state a run ended in. *)
Definition ended (r : result job unit) : State job unit :=
  match r with
  | Done s => s
  | Raised _ s => s
  | Timeout => start
  end.

(** The labels of the items invoked. *)
Definition order (s : State job unit) : list string :=
  map name_of (calls (trace s)).

(** What the console shows: the lines of [log] and, for each invocation
    of a function object, the label it prints; the invocation of another
    value prints nothing. *)
Definition console (s : State job unit) : list string :=
  flat_map (fun e => match e with
                     | Log p m => [render p m]
                     | Shift _ (Fn j) _ => [label_of j]
                     | _ => []
                     end) (trace s).

(** The program of the driver, [index.js]. *)
Definition driver : State job unit :=
  after_enqueues
    [ (QNextTick,
       doing "[nextTick] callback 1"
         [ (QMicrotasks, say "[microtask] from inside nextTick");
           (QNextTick, say "[nextTick] added from inside nextTick") ]);
      (QNextTick, say "[nextTick] callback 2");
      (QMicrotasks,
       doing "[microtask] callback 1"
         [ (QMicrotasks, say "[microtask] nested callback") ]);
      (QMicrotasks, say "[microtask] callback 2");
      (QTimers,
       doing "[timer] callback 1" [ (QCheck, say "[check] from timer 1") ]);
      (QTimers, say "[timer] callback 2");
      (QPendingCallbacks, say "[pending] callback 1");
      (QPendingCallbacks, say "[pending] callback 2");
      (QIdlePrepare, say "[idle/prepare] callback");
      (QPoll,
       doing "[poll] callback 1" [ (QNextTick, say "[nextTick] from poll") ]);
      (QPoll, say "[poll] callback 2");
      (QCheck,
       doing "[check] callback 1" [ (QMicrotasks, say "[microtask] from check") ]);
      (QCheck, say "[check] callback 2");
      (QCloseCallbacks, say "[close] callback 1");
      (QCloseCallbacks, say "[close] callback 2") ].

(** A timer and a microtask queued before the tick. *)
Definition timer_and_microtask : State job unit :=
  after_enqueues [ (QTimers, say "T"); (QMicrotasks, say "M") ].

(** Timers A and B, where A pushes C into [microtasks]. *)
Definition a_pushes_microtask : State job unit :=
  after_enqueues
    [ (QTimers, doing "A" [ (QMicrotasks, say "C") ]); (QTimers, say "B") ].

(** Timers A and B, where A pushes N into [nextTick]. *)
Definition a_pushes_nextTick : State job unit :=
  after_enqueues
    [ (QTimers, doing "A" [ (QNextTick, say "N") ]); (QTimers, say "B") ].

(** A [nextTick] item that pushes another one. *)
Definition nextTick_nested : State job unit :=
  after_enqueues [ (QNextTick, doing "N1" [ (QNextTick, say "N2") ]) ].

(** A microtask that pushes a microtask and a [nextTick] item. *)
Definition microtask_nested : State job unit :=
  after_enqueues
    [ (QMicrotasks,
       doing "M1" [ (QMicrotasks, say "M2"); (QNextTick, say "N3") ]) ].

(** Timers A and B and a check C, where A throws. *)
Definition a_throws : State job unit :=
  after_enqueues
    [ (QTimers, failing "A"); (QTimers, say "B"); (QCheck, say "C") ].

(** The output [index.js] documents for its first tick, without the two
    lines of the driver that frame it. *)
Definition documented_output : list string :=
    [
      "[nextTick] nextTick phase started";
      "[nextTick] callback 1";
      "[nextTick] callback 2";
      "[nextTick] added from inside nextTick";
      "[nextTick] nextTick phase completed";
      "[timers] >> timers phase started";
      "[timer] callback 1";
      "[microtasks] Microtasks phase started";
      "[microtask] callback 1";
      "[microtask] callback 2";
      "[microtask] from inside nextTick";
      "[microtask] nested callback";
      "[microtasks] Microtasks phase completed";
      "[timer] callback 2";
      "[microtasks] Microtasks phase started";
      "[microtasks] Microtasks phase completed";
      "[timers] >> timers phase completed";
      "[nextTick] nextTick phase started";
      "[nextTick] nextTick phase completed";
      "[pendingCallbacks] >> pendingCallbacks phase started";
      "[pending] callback 1";
      "[microtasks] Microtasks phase started";
      "[microtasks] Microtasks phase completed";
      "[pending] callback 2";
      "[microtasks] Microtasks phase started";
      "[microtasks] Microtasks phase completed";
      "[pendingCallbacks] >> pendingCallbacks phase completed";
      "[nextTick] nextTick phase started";
      "[nextTick] nextTick phase completed";
      "[idlePrepare] >> idlePrepare phase started";
      "[idle/prepare] callback";
      "[microtasks] Microtasks phase started";
      "[microtasks] Microtasks phase completed";
      "[idlePrepare] >> idlePrepare phase completed";
      "[nextTick] nextTick phase started";
      "[nextTick] nextTick phase completed";
      "[poll] >> poll phase started";
      "[poll] callback 1";
      "[microtasks] Microtasks phase started";
      "[microtasks] Microtasks phase completed";
      "[poll] callback 2";
      "[microtasks] Microtasks phase started";
      "[microtasks] Microtasks phase completed";
      "[poll] >> poll phase completed";
      "[nextTick] nextTick phase started";
      "[nextTick] from poll";
      "[nextTick] nextTick phase completed";
      "[check] >> check phase started";
      "[check] callback 1";
      "[microtasks] Microtasks phase started";
      "[microtask] from check";
      "[microtasks] Microtasks phase completed";
      "[check] callback 2";
      "[microtasks] Microtasks phase started";
      "[microtasks] Microtasks phase completed";
      "[check] from timer 1";
      "[microtasks] Microtasks phase started";
      "[microtasks] Microtasks phase completed";
      "[check] >> check phase completed";
      "[nextTick] nextTick phase started";
      "[nextTick] nextTick phase completed";
      "[closeCallbacks] >> closeCallbacks phase started";
      "[close] callback 1";
      "[microtasks] Microtasks phase started";
      "[microtasks] Microtasks phase completed";
      "[close] callback 2";
      "[microtasks] Microtasks phase started";
      "[microtasks] Microtasks phase completed";
      "[closeCallbacks] >> closeCallbacks phase completed" ]%string.

End Scenarios.


(** ** A tick as a list of phases *)

Section Phases.

Variables cb W : Type.
Variable body : cb -> W -> effect cb W.

(** The six calls of [tick], in their order. *)
Definition phases : list (string * qref) :=
  [ (TIMERS, QTimers);
    (PENDING_CALLBACKS, QPendingCallbacks);
    (IDLE_PREPARE, QIdlePrepare);
    (POLL, QPoll);
    (CHECK, QCheck);
    (CLOSE_CALLBACKS, QCloseCallbacks) ].

(** [this.runPhase(p, q); ...] for the phases of [l], one after the other. *)
Fixpoint run_phases (l : list (string * qref)) (fuel : nat) : M cb W :=
  match l with
  | [] => @ret cb W
  | (p, q) :: l' => seq (runPhase body p q fuel) (run_phases l' fuel)
  end.

(** The queues [runPhase] may take from when it runs the phases [l]: the
    two priority queues and the queues of [l]. *)
Definition among (l : list qref) : qref -> bool :=
  fun q => negb (is_phase q) || existsb (qref_eqb q) l.

(** Nothing is queued but microtasks. *)
Definition only_microtasks (x : Queues cb) : Prop :=
  forall q, q <> QMicrotasks -> get q x = [].

(** A function object that, whenever invoked, returns without an enqueue
    call. *)
Definition quiet (v : value cb) : Prop :=
  exists c, v = Fn c /\
            forall w, enqueues (body c w) = [] /\ throws (body c w) = None.

Definition all_quiet (x : Queues cb) : Prop :=
  forall q, Forall quiet (get q x).

(** The items of the six phase queues, in the order of the phases. *)
Definition phase_items (x : Queues cb) : list (value cb) :=
  timers x ++ pendingCallbacks x ++ idlePrepare x ++ poll x ++
  check x ++ closeCallbacks x.

(** The order in which one tick invokes what is queued, when no callback
    enqueues: [nextTick], then the first phase item, then [microtasks],
    then the other phase items. *)
Definition static_order (x : Queues cb) : list (value cb) :=
  nextTick x ++
  match phase_items x with
  | [] => []
  | c :: rest => c :: microtasks x ++ rest
  end.

(** The same, phase queue by phase queue: [m] is what [microtasks] holds. *)
Fixpoint order_from (m : list (value cb)) (l : list (list (value cb)))
  : list (value cb) :=
  match l with
  | [] => []
  | [] :: l' => order_from m l'
  | (c :: rest) :: l' => c :: m ++ rest ++ List.concat l'
  end.

Definition size (x : Queues cb) : nat :=
  List.length (nextTick x) + List.length (microtasks x) +
  List.length (phase_items x).

(** [m] pays for each invocation: when it ends, the invocations it made
    and the load it leaves do not exceed the load it found. *)
Definition spends (wt : cb -> nat) (m : M cb W) : Prop :=
  forall s s', final (m s) = Some s' ->
    exists d, trace s' = trace s ++ d /\
              List.length (calls d) + load wt (qs s') <= load wt (qs s).

End Phases.

Arguments phases : clear implicits.

Module MoreScenarios.
Import Script Scenarios.

(** The example of the README: one callback in each of [nextTick],
    [microtasks] and [timers]. *)
Definition readme : State job unit :=
  after_enqueues
    [ (QNextTick, say "nextTick callback");
      (QMicrotasks, say "microtask callback");
      (QTimers, say "timer callback") ].

(** Two microtasks and nothing else. *)
Definition microtasks_alone : State job unit :=
  after_enqueues [ (QMicrotasks, say "M1"); (QMicrotasks, say "M2") ].

(** A poll callback that pushes a timer and a check. *)
Definition poll_pushes : State job unit :=
  after_enqueues
    [ (QPoll, doing "P" [ (QTimers, say "T"); (QCheck, say "K") ]);
      (QTimers, say "T0") ].

(** A timer [A] pushes [N] into [nextTick]; [N] pushes the timer [T2] and
    the microtask [M2]; [Q] is a pending callback. *)
Definition late_nextTick : State job unit :=
  after_enqueues
    [ (QTimers,
       doing "A"
         [ (QNextTick,
            doing "N" [ (QTimers, say "T2"); (QMicrotasks, say "M2") ]) ]);
      (QPendingCallbacks, say "Q") ].

(** A [nextTick] item that pushes a check. *)
Definition nextTick_pushes_check : State job unit :=
  after_enqueues [ (QNextTick, doing "N" [ (QCheck, say "K1") ]) ].

(** A microtask that pushes a check. *)
Definition microtask_pushes_check : State job unit :=
  after_enqueues [ (QMicrotasks, doing "M" [ (QCheck, say "K2") ]) ].

(** A close callback that pushes into [nextTick]. *)
Definition close_pushes_nextTick : State job unit :=
  after_enqueues [ (QCloseCallbacks, doing "C" [ (QNextTick, say "N") ]) ].

End MoreScenarios.


(** ** Properties of the methods *)

Section Properties.

Variables cb W : Type.
Variable body : cb -> W -> effect cb W.

(** *** Queues as a record of eight fields *)

Lemma qref_eqb_eq (a b : qref) : qref_eqb a b = true <-> a = b.
Proof. destruct a, b; simpl; split; intro H; try reflexivity; discriminate. Qed.

Lemma qref_eqb_refl (a : qref) : qref_eqb a a = true.
Proof. destruct a; reflexivity. Qed.

Lemma qref_eqb_neq (a b : qref) : a <> b -> qref_eqb a b = false.
Proof.
  intro H. destruct (qref_eqb a b) eqn:E; [|reflexivity].
  apply qref_eqb_eq in E. contradiction.
Qed.

Lemma get_set_same (q : qref) (l : list (value cb)) (x : Queues cb) :
  get q (set q l x) = l.
Proof. destruct q; reflexivity. Qed.

Lemma get_set_other (q q' : qref) (l : list (value cb)) (x : Queues cb) :
  q <> q' -> get q' (set q l x) = get q' x.
Proof. intro H. destruct q, q'; try reflexivity; contradiction H; reflexivity. Qed.

(** *** Traces *)

Lemma pushes_of_app (q : qref) (d1 d2 : list (event cb)) :
  pushes_of q (d1 ++ d2) = pushes_of q d1 ++ pushes_of q d2.
Proof.
  induction d1 as [|e d1 IH]; simpl; [reflexivity|].
  destruct e; try assumption.
  destruct (qref_eqb q q0); simpl; congruence.
Qed.

Lemma shifts_of_app (q : qref) (d1 d2 : list (event cb)) :
  shifts_of q (d1 ++ d2) = shifts_of q d1 ++ shifts_of q d2.
Proof.
  induction d1 as [|e d1 IH]; simpl; [reflexivity|].
  destruct e; try assumption.
  destruct (qref_eqb q q0); simpl; congruence.
Qed.

Lemma snapshots_of_app (q : qref) (d1 d2 : list (event cb)) :
  snapshots_of q (d1 ++ d2) = snapshots_of q d1 ++ snapshots_of q d2.
Proof.
  induction d1 as [|e d1 IH]; simpl; [reflexivity|].
  destruct e; try assumption.
  destruct (qref_eqb q q0); simpl; congruence.
Qed.

Lemma faults_app (d1 d2 : list (event cb)) :
  faults (d1 ++ d2) = faults d1 ++ faults d2.
Proof.
  induction d1 as [|e d1 IH]; simpl; [reflexivity|].
  destruct e; simpl; congruence.
Qed.

Lemma marks_app (d1 d2 : list (event cb)) :
  marks (d1 ++ d2) = marks d1 ++ marks d2.
Proof. apply filter_app. Qed.

Lemma replays_app (a b c : Queues cb) (d1 d2 : list (event cb)) :
  replays a d1 b -> replays b d2 c -> replays a (d1 ++ d2) c.
Proof.
  induction 1; intros H2; simpl; try constructor; auto.
Qed.

(** First in, first out: what was in a queue, followed by what was pushed,
    is what was shifted, followed by what is left. *)
Lemma replays_fifo (a b : Queues cb) (d : list (event cb)) :
  replays a d b ->
  forall q, get q a ++ pushes_of q d = shifts_of q d ++ get q b.
Proof.
  induction 1 as [a|a phase msg d b H IH|a e d b H IH|a q0 v d b H IH
                 |a q0 v rest d b Hq H IH];
    intros q; simpl.
  - apply app_nil_r.
  - apply IH.
  - apply IH.
  - specialize (IH q). destruct (qref_eqb q q0) eqn:E.
    + apply qref_eqb_eq in E. subst q0.
      rewrite get_set_same in IH. rewrite <- IH, <- app_assoc. reflexivity.
    + rewrite get_set_other in IH; [assumption|].
      intro; subst. rewrite qref_eqb_refl in E. discriminate.
  - specialize (IH q). destruct (qref_eqb q q0) eqn:E.
    + apply qref_eqb_eq in E. subst q0.
      rewrite get_set_same in IH. rewrite Hq. simpl. congruence.
    + rewrite get_set_other in IH; [assumption|].
      intro; subst. rewrite qref_eqb_refl in E. discriminate.
Qed.

Lemma sources_weaken (al al' : qref -> bool) (d : list (event cb)) :
  (forall q, al q = true -> al' q = true) -> sources al d -> sources al' d.
Proof.
  intros Hw H. unfold sources in *. eapply Forall_impl; [|exact H].
  intros [] He; simpl in *; auto.
Qed.

(** A trace without a shift from [q] has no shifted item of [q]. *)
Lemma sources_shifts_nil (al : qref -> bool) (q : qref) (d : list (event cb)) :
  al q = false -> sources al d -> shifts_of q d = [] /\ snapshots_of q d = [].
Proof.
  intros Hq H. induction H as [|e d He H IH]; simpl; [split; reflexivity|].
  destruct e; try assumption.
  simpl in He. destruct (qref_eqb q q0) eqn:E; [|assumption].
  apply qref_eqb_eq in E. subst. congruence.
Qed.

(** *** Sequencing *)

Lemma seq_done (a b : M cb W) (s s' : State cb W) :
  seq a b s = Done s' -> exists s1, a s = Done s1 /\ b s1 = Done s'.
Proof.
  unfold seq. destruct (a s) as [s1|e s1|]; intro H; try discriminate.
  exists s1. split; [reflexivity|assumption].
Qed.

Lemma seq_raised (a b : M cb W) (s s' : State cb W) (e : exn) :
  seq a b s = Raised e s' ->
  a s = Raised e s' \/ exists s1, a s = Done s1 /\ b s1 = Raised e s'.
Proof.
  unfold seq. destruct (a s) as [s1|e1 s1|]; intro H; try discriminate.
  - right. exists s1. split; [reflexivity|assumption].
  - left. assumption.
Qed.

Lemma seq_final (a b : M cb W) (s s' : State cb W) :
  final (seq a b s) = Some s' ->
  (final (a s) = Some s' /\ forall s1, a s <> Done s1) \/
  exists s1, a s = Done s1 /\ final (b s1) = Some s'.
Proof.
  unfold seq. destruct (a s) as [s1|e1 s1|]; intro H; try discriminate.
  - right. exists s1. split; [reflexivity|assumption].
  - left. split; [assumption|discriminate].
Qed.

Lemma follows_refl (al : qref -> bool) (s : State cb W) : follows al s [] s.
Proof.
  repeat split.
  - symmetry. apply app_nil_r.
  - constructor.
  - constructor.
Qed.

Lemma follows_trans (al : qref -> bool) (s s1 s2 : State cb W)
  (d1 d2 : list (event cb)) :
  follows al s d1 s1 -> follows al s1 d2 s2 -> follows al s (d1 ++ d2) s2.
Proof.
  intros (T1 & R1 & F1 & S1) (T2 & R2 & F2 & S2). repeat split.
  - rewrite T2, T1. symmetry. apply app_assoc.
  - eapply replays_app; eassumption.
  - congruence.
  - apply Forall_app. split; assumption.
Qed.

Lemma follows_weaken (al al' : qref -> bool) (s s' : State cb W)
  (d : list (event cb)) :
  (forall q, al q = true -> al' q = true) ->
  follows al s d s' -> follows al' s d s'.
Proof.
  intros Hw (T & R & F & S). repeat split; try assumption.
  eapply sources_weaken; eassumption.
Qed.

Lemma obeys_weaken (al al' : qref -> bool) (m : M cb W) :
  (forall q, al q = true -> al' q = true) -> obeys al m -> obeys al' m.
Proof.
  intros Hw H s s' Hf. destruct (H s s' Hf) as (d & Hd & Ho).
  exists d. split; [|exact Ho]. eapply follows_weaken; eassumption.
Qed.

Lemma obeys_seq (al : qref -> bool) (a b : M cb W) :
  obeys al a -> obeys al b -> obeys al (seq a b).
Proof.
  intros Ha Hb s s' H. pose proof H as H0. apply seq_final in H.
  destruct H as [[H N]|(s1 & H1 & H2)].
  - destruct (Ha s s' H) as (d & F & O). exists d. split; [exact F|].
    rewrite O. unfold seq. destruct (a s); try reflexivity.
    contradiction (N s0). reflexivity.
  - destruct (Ha s s1) as (d1 & F1 & O1); [rewrite H1; reflexivity|].
    destruct (Hb s1 s' H2) as (d2 & F2 & O2).
    exists (d1 ++ d2). split; [eapply follows_trans; eassumption|].
    rewrite faults_app, O1, O2. unfold seq. rewrite H1. reflexivity.
Qed.

Lemma obeys_ret (al : qref -> bool) : obeys al (@ret cb W).
Proof.
  intros s s' H. injection H as <-. exists [].
  split; [apply follows_refl|reflexivity].
Qed.

Lemma follows_log (al : qref -> bool) (phase msg : string) (s : State cb W) :
  follows al s [Log phase msg] (emit (Log phase msg) s).
Proof.
  repeat split; simpl.
  - repeat constructor.
  - repeat constructor.
Qed.

Lemma obeys_log (al : qref -> bool) (phase msg : string) :
  obeys al (@log cb W phase msg).
Proof.
  intros s s' H. injection H as <-. eexists.
  split; [apply follows_log|reflexivity].
Qed.

Lemma follows_push (al : qref -> bool) (q : qref) (v : value cb)
  (s : State cb W) :
  follows al s [Push q v]
    (emit (Push q v) (with_queues (fun x => set q (get q x ++ [v]) x) s)).
Proof.
  repeat split; simpl.
  - repeat constructor.
  - repeat constructor.
Qed.

Lemma obeys_push (al : qref -> bool) (q : qref) (v : value cb) :
  obeys al (@push cb W q v).
Proof.
  intros s s' H. injection H as <-. eexists.
  split; [apply follows_push|reflexivity].
Qed.

Lemma enqueue_push (q : qref) (v : value cb) :
  @enqueue cb W q v = push q v.
Proof. destruct q; reflexivity. Qed.

(** The ghost events of a list of enqueue calls. *)
Lemma enqueue_all_done (l : list (qref * value cb)) (s : State cb W) :
  exists s', enqueue_all l s = Done s' /\
             follows no_queue s (map (fun p => Push (fst p) (snd p)) l) s' /\
             world s' = world s.
Proof.
  revert s. induction l as [|[q v] l IH]; intro s; simpl.
  - exists s. split; [reflexivity|]. split; [apply follows_refl|reflexivity].
  - unfold seq. rewrite enqueue_push. unfold push at 1.
    destruct (IH (emit (Push q v)
                   (with_queues (fun x => set q (get q x ++ [v]) x) s)))
      as (s' & E & F & Hw).
    exists s'. split; [assumption|]. split; [|assumption].
    change (Push q v :: map (fun p => Push (fst p) (snd p)) l)
      with ([Push q v] ++ map (fun p : qref * value cb => Push (fst p) (snd p)) l).
    eapply follows_trans; [apply follows_push|exact F].
Qed.

Lemma follows_with_world (al : qref -> bool) (s s' : State cb W)
  (d : list (event cb)) (w : W) :
  follows al s d s' -> follows al s d (with_world w s').
Proof. intros (T & R & F & S). repeat split; assumption. Qed.

Lemma follows_threw (al : qref -> bool) (s s' : State cb W)
  (d : list (event cb)) (e : exn) :
  follows al s d s' -> follows al s (d ++ [Threw e]) (emit (Threw e) s').
Proof.
  intro F. eapply follows_trans; [exact F|].
  repeat split; simpl; repeat constructor.
Qed.

Lemma faults_pushes (l : list (qref * value cb)) :
  faults (map (fun p => Push (fst p) (snd p)) l) = [].
Proof. induction l as [|[q v] l IH]; simpl; auto. Qed.

(** What an invocation does: the pushes of the function's body and, when it
    throws, the record of that; a value that is no function throws at once. *)
Lemma call_cases (name : string) (v : value cb) (s : State cb W) :
  exists l s1,
    follows no_queue s (map (fun p => Push (fst p) (snd p)) l) s1 /\
    (call body name v s = Done s1 \/
     exists e, call body name v s = Raised e (emit (Threw e) s1)).
Proof.
  unfold call. destruct v as [c| | |];
    try (exists [], s; split; [apply follows_refl|right; eexists; reflexivity]).
  destruct (enqueue_all_done (enqueues (body c (world s))) s) as (s1 & E & F & _).
  unfold seq. rewrite E.
  exists (enqueues (body c (world s))), (with_world (world' (body c (world s))) s1).
  split; [apply follows_with_world; exact F|].
  destruct (throws (body c (world s))) as [x|].
  - right. exists x. reflexivity.
  - left. reflexivity.
Qed.

(** An invocation takes nothing out of any queue. *)
Lemma obeys_call (al : qref -> bool) (name : string) (v : value cb) :
  obeys al (call body name v).
Proof.
  apply obeys_weaken with (al := no_queue); [discriminate|].
  intros s s' H.
  destruct (call_cases name v s) as (l & s1 & F & [E|[e E]]);
    rewrite E in H |- *; injection H as <-.
  - eexists. split; [exact F|]. apply faults_pushes.
  - eexists. split; [apply follows_threw; exact F|].
    rewrite faults_app, faults_pushes. reflexivity.
Qed.

(** *** The loops *)

Lemma follows_shifted (al : qref -> bool) (q : qref) (v : value cb)
  (rest : list (value cb)) (s : State cb W) :
  al q = true -> get q (qs s) = v :: rest ->
  follows al s [Shift q v (set q rest (qs s))] (shifted q v rest s).
Proof.
  intros Ha Hq. repeat split; simpl.
  - apply replays_shift; [assumption|constructor].
  - repeat constructor. assumption.
Qed.

Lemma obeys_drain (al : qref -> bool) (q : qref) (fuel : nat) :
  al q = true -> obeys al (drain body q fuel).
Proof.
  intros Ha. induction fuel as [|n IH]; intros s s' H; simpl in H |- *.
  - destruct (get q (qs s)); [|discriminate].
    injection H as <-. exists []. split; [apply follows_refl|reflexivity].
  - destruct (get q (qs s)) as [|task rest] eqn:Hq.
    + injection H as <-. exists []. split; [apply follows_refl|reflexivity].
    + destruct (obeys_seq (obeys_call al "task" task) IH _ H) as (d & F & O).
      exists ([Shift q task (set q rest (qs s))] ++ d). split; [|exact O].
      eapply follows_trans; [|exact F].
      apply follows_shifted; assumption.
Qed.

Lemma obeys_runNextTick (al : qref -> bool) (fuel : nat) :
  al QNextTick = true -> obeys al (runNextTick body fuel).
Proof.
  intro Ha. unfold runNextTick.
  repeat apply obeys_seq; try apply obeys_log. apply obeys_drain. assumption.
Qed.

Lemma obeys_runMicrotasks (al : qref -> bool) (fuel : nat) :
  al QMicrotasks = true -> obeys al (runMicrotasks body fuel).
Proof.
  intro Ha. unfold runMicrotasks.
  repeat apply obeys_seq; try apply obeys_log. apply obeys_drain. assumption.
Qed.

Lemma obeys_phase_loop (al : qref -> bool) (queue : qref) (fuel : nat) :
  al queue = true -> al QMicrotasks = true ->
  obeys al (phase_loop body queue fuel).
Proof.
  intros Ha Hm. induction fuel as [|n IH]; intros s s' H; simpl in H |- *.
  - destruct (get queue (qs s)); [|discriminate].
    injection H as <-. exists []. split; [apply follows_refl|reflexivity].
  - destruct (get queue (qs s)) as [|callback rest] eqn:Hq.
    + injection H as <-. exists []. split; [apply follows_refl|reflexivity].
    + assert (Ho : obeys al (seq (call body "callback" callback)
                     (seq (runMicrotasks body n) (phase_loop body queue n)))).
      { apply obeys_seq; [apply obeys_call|].
        apply obeys_seq; [apply obeys_runMicrotasks; assumption|exact IH]. }
      destruct (Ho _ _ H) as (d & F & O).
      exists ([Shift queue callback (set queue rest (qs s))] ++ d).
      split; [|exact O].
      eapply follows_trans; [|exact F].
      apply follows_shifted; assumption.
Qed.

Lemma obeys_runPhase (phase : string) (queue : qref) (fuel : nat) :
  obeys any_queue (runPhase body phase queue fuel).
Proof.
  unfold runPhase.
  apply obeys_seq; [apply obeys_runNextTick; reflexivity|].
  apply obeys_seq; [apply obeys_log|].
  apply obeys_seq; [apply obeys_phase_loop; reflexivity|apply obeys_log].
Qed.

Lemma obeys_tick (fuel : nat) : obeys any_queue (tick body fuel).
Proof.
  unfold tick. do 5 (apply obeys_seq; [apply obeys_runPhase|]).
  apply obeys_runPhase.
Qed.

(** *** A loop returns with its queue empty *)

Lemma drain_done (q : qref) (fuel : nat) (s s' : State cb W) :
  drain body q fuel s = Done s' -> get q (qs s') = [].
Proof.
  revert s. induction fuel as [|n IH]; intros s H; simpl in H.
  - destruct (get q (qs s)) eqn:Hq; [|discriminate]. congruence.
  - destruct (get q (qs s)) as [|task rest] eqn:Hq; [congruence|].
    apply seq_done in H. destruct H as (s1 & _ & H). eapply IH; eassumption.
Qed.

Lemma runNextTick_done (fuel : nat) (s s' : State cb W) :
  runNextTick body fuel s = Done s' -> nextTick (qs s') = [].
Proof.
  intro H. unfold runNextTick in H.
  apply seq_done in H. destruct H as (s1 & _ & H).
  apply seq_done in H. destruct H as (s2 & H & L).
  apply drain_done in H. injection L as <-. exact H.
Qed.

Lemma runMicrotasks_done (fuel : nat) (s s' : State cb W) :
  runMicrotasks body fuel s = Done s' -> microtasks (qs s') = [].
Proof.
  intro H. unfold runMicrotasks in H.
  apply seq_done in H. destruct H as (s1 & _ & H).
  apply seq_done in H. destruct H as (s2 & H & L).
  apply drain_done in H. injection L as <-. exact H.
Qed.

Lemma phase_loop_done (queue : qref) (fuel : nat) (s s' : State cb W) :
  phase_loop body queue fuel s = Done s' -> get queue (qs s') = [].
Proof.
  revert s. induction fuel as [|n IH]; intros s H; simpl in H.
  - destruct (get queue (qs s)) eqn:Hq; [|discriminate]. congruence.
  - destruct (get queue (qs s)) as [|callback rest] eqn:Hq; [congruence|].
    apply seq_done in H. destruct H as (s1 & _ & H).
    apply seq_done in H. destruct H as (s2 & _ & H). eapply IH; eassumption.
Qed.

Lemma runPhase_done (phase : string) (queue : qref) (fuel : nat)
  (s s' : State cb W) :
  runPhase body phase queue fuel s = Done s' -> get queue (qs s') = [].
Proof.
  intro H. unfold runPhase in H.
  apply seq_done in H. destruct H as (s1 & _ & H).
  apply seq_done in H. destruct H as (s2 & _ & H).
  apply seq_done in H. destruct H as (s3 & H & L).
  apply phase_loop_done in H. injection L as <-. exact H.
Qed.

(** *** More fuel never changes an outcome *)

Lemma seq_more (a a' b b' : M cb W) (s : State cb W) :
  (a s <> Timeout -> a' s = a s) ->
  (forall s1, b s1 <> Timeout -> b' s1 = b s1) ->
  seq a b s <> Timeout -> seq a' b' s = seq a b s.
Proof.
  intros Ha Hb H. unfold seq in *.
  destruct (a s) as [s1|e s1|] eqn:E.
  - rewrite Ha by discriminate. apply Hb. assumption.
  - rewrite Ha by discriminate. reflexivity.
  - contradiction H. reflexivity.
Qed.

Lemma drain_more (q : qref) (n m : nat) (s : State cb W) :
  n <= m -> drain body q n s <> Timeout -> drain body q m s = drain body q n s.
Proof.
  revert m s. induction n as [|n IH]; intros m s Hle H.
  - simpl in *. destruct (get q (qs s)) eqn:Hq.
    + destruct m; simpl; rewrite Hq; reflexivity.
    + contradiction H. reflexivity.
  - destruct m as [|m]; [lia|]. simpl in *.
    destruct (get q (qs s)) as [|task rest]; [reflexivity|].
    apply seq_more; auto. intros s1 H1. apply IH; [lia|assumption].
Qed.

Lemma runNextTick_more (n m : nat) (s : State cb W) :
  n <= m -> runNextTick body n s <> Timeout ->
  runNextTick body m s = runNextTick body n s.
Proof.
  intros Hle H. unfold runNextTick in *.
  apply seq_more; auto. intros s1 H1.
  apply seq_more; auto. intros H2. apply drain_more; assumption.
Qed.

Lemma runMicrotasks_more (n m : nat) (s : State cb W) :
  n <= m -> runMicrotasks body n s <> Timeout ->
  runMicrotasks body m s = runMicrotasks body n s.
Proof.
  intros Hle H. unfold runMicrotasks in *.
  apply seq_more; auto. intros s1 H1.
  apply seq_more; auto. intros H2. apply drain_more; assumption.
Qed.

Lemma phase_loop_more (queue : qref) (n m : nat) (s : State cb W) :
  n <= m -> phase_loop body queue n s <> Timeout ->
  phase_loop body queue m s = phase_loop body queue n s.
Proof.
  revert m s. induction n as [|n IH]; intros m s Hle H.
  - simpl in *. destruct (get queue (qs s)) eqn:Hq.
    + destruct m; simpl; rewrite Hq; reflexivity.
    + contradiction H. reflexivity.
  - destruct m as [|m]; [lia|]. simpl in *.
    destruct (get queue (qs s)) as [|callback rest]; [reflexivity|].
    apply seq_more; auto. intros s1 H1.
    apply seq_more; auto.
    + intros H2. apply runMicrotasks_more; [lia|assumption].
    + intros s2 H2. apply IH; [lia|assumption].
Qed.

Lemma runPhase_more (phase : string) (queue : qref) (n m : nat)
  (s : State cb W) :
  n <= m -> runPhase body phase queue n s <> Timeout ->
  runPhase body phase queue m s = runPhase body phase queue n s.
Proof.
  intros Hle H. unfold runPhase in *.
  apply seq_more; auto.
  - intro. apply runNextTick_more; assumption.
  - intros s1 H1. apply seq_more; auto. intros s2 H2.
    apply seq_more; auto. intros H3. apply phase_loop_more; assumption.
Qed.

Lemma tick_more (n m : nat) (s : State cb W) :
  n <= m -> tick body n s <> Timeout -> tick body m s = tick body n s.
Proof.
  intros Hle H. unfold tick in *.
  repeat (apply seq_more;
          [intro; apply runPhase_more; assumption | intros ? ? | assumption]).
  apply runPhase_more; assumption.
Qed.

(** *** The enqueue methods *)

Lemma push_appends (q : qref) (v : value cb) (s : State cb W) :
  appends_only q v (push q v) s.
Proof.
  eexists. split; [reflexivity|]. simpl. repeat split.
  - apply get_set_same.
  - intros q' Hq. apply get_set_other. congruence.
Qed.

(** C10: each of the eight enqueue methods returns, appends exactly the
    given item at the end of its own queue, and leaves the seven other
    queues and the [running] flag as they were. *)
Theorem enqueue_methods_frame (v : value cb) (s : State cb W) :
  appends_only QNextTick v (queueNextTick v) s /\
  appends_only QMicrotasks v (queueMicrotask v) s /\
  appends_only QTimers v (queueTimer v) s /\
  appends_only QPendingCallbacks v (queuePendingCallback v) s /\
  appends_only QIdlePrepare v (queueIdlePrepare v) s /\
  appends_only QPoll v (queuePoll v) s /\
  appends_only QCheck v (queueCheck v) s /\
  appends_only QCloseCallbacks v (queueCloseCallback v) s.
Proof. repeat split; apply push_appends. Qed.

Lemma enqueue_appends (q : qref) (v : value cb) (s : State cb W) :
  appends_only q v (enqueue q v) s.
Proof. rewrite enqueue_push. apply push_appends. Qed.

Lemma call_not_invocable (name : string) (v : value cb) (s : State cb W) :
  invocable v = false ->
  call body name v s =
    Raised (TypeError (name ++ " is not a function"))
           (emit (Threw (TypeError (name ++ " is not a function"))) s).
Proof. destruct v; simpl; intro H; [discriminate|reflexivity..]. Qed.

(** C4, as the code has it: an enqueue method accepts every value, invocable
    or not, and appends it; a value that is not invocable faults only when a
    loop takes it out of its queue to invoke it, with a [TypeError] that
    leaves the loop at once. *)
Theorem enqueue_accepts_any_value (q : qref) (v : value cb) (s : State cb W)
  (H : invocable v = false) :
  appends_only q v (enqueue q v) s /\
  (forall s1 rest fuel, get q (qs s1) = v :: rest ->
     drain body q (S fuel) s1 =
       Raised (TypeError "task is not a function")
              (emit (Threw (TypeError "task is not a function"))
                    (shifted q v rest s1))) /\
  (forall s1 rest fuel, get q (qs s1) = v :: rest ->
     phase_loop body q (S fuel) s1 =
       Raised (TypeError "callback is not a function")
              (emit (Threw (TypeError "callback is not a function"))
                    (shifted q v rest s1))).
Proof.
  split; [apply enqueue_appends|].
  split; intros s1 rest fuel Hq; simpl; rewrite Hq; unfold seq;
    rewrite call_not_invocable by assumption; reflexivity.
Qed.

(** *** The tick of an empty scheduler *)

Lemma all_empty_eq (x : Queues cb) :
  all_empty x -> x = queues constructor.
Proof.
  intro H. destruct x. unfold all_empty in H.
  pose proof (H QNextTick). pose proof (H QMicrotasks). pose proof (H QTimers).
  pose proof (H QPendingCallbacks). pose proof (H QIdlePrepare).
  pose proof (H QPoll). pose proof (H QCheck). pose proof (H QCloseCallbacks).
  simpl in *. subst. reflexivity.
Qed.

Lemma drain_empty (q : qref) (fuel : nat) (s : State cb W) :
  get q (qs s) = [] -> drain body q fuel s = Done s.
Proof. intro H. destruct fuel; simpl; rewrite H; reflexivity. Qed.

Lemma phase_loop_empty (queue : qref) (fuel : nat) (s : State cb W) :
  get queue (qs s) = [] -> phase_loop body queue fuel s = Done s.
Proof. intro H. destruct fuel; simpl; rewrite H; reflexivity. Qed.

Lemma runPhase_idle (phase : string) (queue : qref) (fuel : nat)
  (x : EventLoopSimulator cb) (w : W) (tr : list (event cb)) :
  nextTick (queues x) = [] -> get queue (queues x) = [] ->
  runPhase body phase queue fuel (mkState x w tr) =
    Done (mkState x w (tr ++ idle_phase phase)).
Proof.
  intros Hn Hq. unfold runPhase, runNextTick, seq, log.
  rewrite drain_empty by exact Hn.
  rewrite phase_loop_empty by exact Hq.
  unfold idle_phase, emit. cbn [this world trace].
  repeat rewrite <- app_assoc. reflexivity.
Qed.

(** C8: on a scheduler whose eight queues are empty, [tick] returns for
    every amount of fuel, invokes nothing (it only writes the log lines of
    six idle phases) and leaves the eight queues empty. *)
Theorem tick_empty (fuel : nat) (s : State cb W) (H : all_empty (qs s)) :
  tick body fuel s = Done (mkState (this s) (world s) (trace s ++ idle_tick)) /\
  calls (cb := cb) idle_tick = [] /\
  (forall q, shifts_of (cb := cb) q idle_tick = []) /\
  all_empty (qs (mkState (this s) (world s) (trace s ++ idle_tick))).
Proof.
  split; [|split; [reflexivity|split; [intro q; reflexivity|exact H]]].
  destruct s as [x w tr]. unfold qs in H. cbn [this world trace] in *.
  unfold tick, seq.
  rewrite (runPhase_idle _ QTimers fuel x w _ (H QNextTick) (H _)).
  rewrite (runPhase_idle _ QPendingCallbacks fuel x w _ (H QNextTick) (H _)).
  rewrite (runPhase_idle _ QIdlePrepare fuel x w _ (H QNextTick) (H _)).
  rewrite (runPhase_idle _ QPoll fuel x w _ (H QNextTick) (H _)).
  rewrite (runPhase_idle _ QCheck fuel x w _ (H QNextTick) (H _)).
  rewrite (runPhase_idle _ QCloseCallbacks fuel x w _ (H QNextTick) (H _)).
  unfold idle_tick. repeat rewrite <- app_assoc. reflexivity.
Qed.

(** *** First in, first out *)

Lemma follows_fifo (al : qref -> bool) (s s' : State cb W)
  (d : list (event cb)) :
  follows al s d s' ->
  forall q, get q (qs s) ++ pushes_of q d = shifts_of q d ++ get q (qs s').
Proof. intros (_ & R & _). apply replays_fifo. exact R. Qed.

(** A run that takes nothing out of [q] only appends to [q]. *)
Lemma follows_untouched (al : qref -> bool) (s s' : State cb W)
  (d : list (event cb)) (q : qref) :
  al q = false -> follows al s d s' ->
  shifts_of q d = [] /\ snapshots_of q d = [] /\
  get q (qs s') = get q (qs s) ++ pushes_of q d.
Proof.
  intros Hq F. pose proof (follows_fifo F q) as E.
  destruct F as (_ & _ & _ & S).
  destruct (sources_shifts_nil q Hq S) as [Z1 Z2].
  rewrite Z1 in E. simpl in E. auto.
Qed.

(** A drain that returns took out all that was in its queue and all that
    was pushed into it meanwhile. *)
Lemma follows_emptied (al : qref -> bool) (s s' : State cb W)
  (d : list (event cb)) (q : qref) :
  follows al s d s' -> get q (qs s') = [] ->
  shifts_of q d = get q (qs s) ++ pushes_of q d.
Proof.
  intros F E. pose proof (follows_fifo F q) as H.
  rewrite E, app_nil_r in H. auto.
Qed.

Lemma obeys_ticks (k fuel : nat) : obeys any_queue (ticks body k fuel).
Proof.
  induction k as [|k IH]; simpl.
  - apply obeys_ret.
  - apply obeys_seq; [apply obeys_tick|exact IH].
Qed.

Lemma done_final (m : M cb W) (s s' : State cb W) :
  m s = Done s' -> final (m s) = Some s'.
Proof. intros ->. reflexivity. Qed.


(** *** The phase lines *)

Lemma writes_seq (mk1 mk2 : list (event cb)) (a b : M cb W) :
  writes mk1 a -> writes mk2 b -> writes (mk1 ++ mk2) (seq a b).
Proof.
  intros Ha Hb s s' H. apply seq_done in H. destruct H as (s1 & H1 & H2).
  rewrite (Hb _ _ H2), (Ha _ _ H1). symmetry. apply app_assoc.
Qed.

Lemma writes_nil_seq (a b : M cb W) :
  writes [] a -> writes [] b -> writes [] (seq a b).
Proof. intros Ha Hb. apply (writes_seq Ha Hb). Qed.

Lemma writes_ret : writes [] (@ret cb W).
Proof. intros s s' H. injection H as <-. symmetry. apply app_nil_r. Qed.

Lemma mark_prefix (s : string) : String.prefix ">> " (">> " ++ s) = true.
Proof. cbn. destruct s; reflexivity. Qed.

Lemma writes_log_plain (phase msg : string) :
  String.prefix ">> " msg = false -> writes [] (@log cb W phase msg).
Proof.
  intros Hp s s' H. injection H as <-. simpl.
  rewrite marks_app. simpl. rewrite Hp. reflexivity.
Qed.

Lemma writes_log_mark (phase msg : string) :
  String.prefix ">> " msg = true ->
  writes [Log phase msg] (@log cb W phase msg).
Proof.
  intros Hp s s' H. injection H as <-. simpl.
  rewrite marks_app. simpl. rewrite Hp. reflexivity.
Qed.

Lemma writes_enqueue_all (l : list (qref * value cb)) :
  writes [] (@enqueue_all cb W l).
Proof.
  induction l as [|[q v] l IH]; simpl.
  - apply writes_ret.
  - apply writes_nil_seq; [|exact IH].
    intros s s' H. rewrite enqueue_push in H. injection H as <-. simpl.
    rewrite marks_app. reflexivity.
Qed.

Lemma writes_call (name : string) (v : value cb) : writes [] (call body name v).
Proof.
  intros s s' H. unfold call in H. destruct v as [c| | |]; try discriminate.
  apply seq_done in H. destruct H as (s1 & H1 & H2).
  apply writes_enqueue_all in H1.
  destruct (throws (body c (world s))); [discriminate|].
  injection H2 as <-. exact H1.
Qed.

Lemma writes_shifted (q : qref) (v : value cb) (rest : list (value cb))
  (s : State cb W) :
  marks (trace (shifted q v rest s)) = marks (trace s).
Proof. simpl. rewrite marks_app. simpl. apply app_nil_r. Qed.

Lemma writes_drain (q : qref) (fuel : nat) : writes [] (drain body q fuel).
Proof.
  induction fuel as [|n IH]; intros s s' H; simpl in H.
  - destruct (get q (qs s)); [|discriminate].
    injection H as <-. symmetry. apply app_nil_r.
  - destruct (get q (qs s)) as [|task rest].
    + injection H as <-. symmetry. apply app_nil_r.
    + rewrite (writes_nil_seq (@writes_call "task" task) IH _ H).
      rewrite writes_shifted. reflexivity.
Qed.

Lemma writes_runNextTick (fuel : nat) : writes [] (runNextTick body fuel).
Proof.
  unfold runNextTick.
  apply writes_nil_seq; [apply writes_log_plain; reflexivity|].
  apply writes_nil_seq; [apply writes_drain|].
  apply writes_log_plain; reflexivity.
Qed.

Lemma writes_runMicrotasks (fuel : nat) : writes [] (runMicrotasks body fuel).
Proof.
  unfold runMicrotasks.
  apply writes_nil_seq; [apply writes_log_plain; reflexivity|].
  apply writes_nil_seq; [apply writes_drain|].
  apply writes_log_plain; reflexivity.
Qed.

Lemma writes_phase_loop (queue : qref) (fuel : nat) :
  writes [] (phase_loop body queue fuel).
Proof.
  induction fuel as [|n IH]; intros s s' H; simpl in H.
  - destruct (get queue (qs s)); [|discriminate].
    injection H as <-. symmetry. apply app_nil_r.
  - destruct (get queue (qs s)) as [|callback rest].
    + injection H as <-. symmetry. apply app_nil_r.
    + rewrite (writes_nil_seq (@writes_call "callback" callback)
                 (writes_nil_seq (writes_runMicrotasks n) IH) _ H).
      rewrite writes_shifted. reflexivity.
Qed.

Lemma writes_runPhase (phase : string) (queue : qref) (fuel : nat) :
  writes [started phase; completed phase] (runPhase body phase queue fuel).
Proof.
  unfold runPhase.
  apply (@writes_seq [] [started phase; completed phase]);
    [apply writes_runNextTick|].
  apply (@writes_seq [started phase] [completed phase]);
    [apply writes_log_mark; apply mark_prefix|].
  apply (@writes_seq [] [completed phase]); [apply writes_phase_loop|].
  apply writes_log_mark; apply mark_prefix.
Qed.

Lemma writes_tick (fuel : nat) : writes tick_marks (tick body fuel).
Proof.
  unfold tick, tick_marks.
  repeat (match goal with
          | |- writes (started ?p :: completed ?p :: ?l) _ =>
              apply (@writes_seq [started p; completed p] l);
                [apply writes_runPhase|]
          end).
  apply writes_runPhase.
Qed.

(** What a run writes, read off the events it added. *)
Lemma marks_delta (s s' : State cb W) (d mk : list (event cb)) :
  trace s' = trace s ++ d ->
  marks (trace s') = marks (trace s) ++ mk -> marks d = mk.
Proof.
  intros T H. rewrite T, marks_app in H. eapply app_inv_head. exact H.
Qed.

(** *** Exceptions *)

Lemma thrown_by_later (s s1 s' st : State cb W) (d : list (event cb))
  (e : exn) (q : qref) (v : value cb) :
  trace s1 = trace s ++ d ->
  thrown_by body s1 e s' q v st -> thrown_by body s e s' q v st.
Proof.
  intros T (pre & name & d' & T1 & C & T2 & P).
  exists (d ++ pre), name, d'. split; [|auto].
  rewrite T1, T. repeat rewrite <- app_assoc. reflexivity.
Qed.

Lemma raises_seq (al : qref -> bool) (a b : M cb W) :
  obeys al a -> raises_in_call body a -> raises_in_call body b ->
  raises_in_call body (seq a b).
Proof.
  intros Ho Ha Hb s e s' H. apply seq_raised in H.
  destruct H as [H|(s1 & H1 & H2)].
  - apply Ha. exact H.
  - destruct (Hb _ _ _ H2) as (q & v & st & Ht).
    destruct (Ho s s1 (done_final _ _ H1)) as (d & F & _).
    exists q, v, st. eapply thrown_by_later; [apply F|exact Ht].
Qed.

Lemma raises_log (phase msg : string) : raises_in_call body (log phase msg).
Proof. intros s e s' H. discriminate. Qed.

Lemma Forall_is_push (l : list (qref * value cb)) :
  Forall (@is_push cb) (map (fun p => Push (fst p) (snd p)) l).
Proof. induction l; simpl; constructor; simpl; auto. Qed.

(** An invocation that throws leaves its pushes and the exception. *)
Lemma call_raised (name : string) (v : value cb) (st s' : State cb W)
  (e : exn) :
  call body name v st = Raised e s' ->
  exists d, trace s' = trace st ++ d ++ [Threw e] /\
            Forall (@is_push cb) d /\
            forall q, get q (qs s') = get q (qs st) ++ pushes_of q d.
Proof.
  intro H. destruct (call_cases name v st) as (l & s1 & F & [E|[e0 E]]);
    rewrite E in H; [discriminate|].
  injection H as -> <-.
  exists (map (fun p => Push (fst p) (snd p)) l). split; [|split].
  - simpl. destruct F as (T & _). rewrite T. symmetry. apply app_assoc.
  - apply Forall_is_push.
  - intro q. apply (follows_untouched q eq_refl F).
Qed.

(** The first invocation of a loop throws: the loop is left at once. *)
Lemma thrown_by_head (q : qref) (v : value cb) (rest : list (value cb))
  (name : string) (s s' : State cb W) (e : exn) :
  call body name v (shifted q v rest s) = Raised e s' ->
  thrown_by body s e s' q v (shifted q v rest s).
Proof.
  intro H. destruct (call_raised _ _ _ H) as (d & T & P & K).
  exists [], name, d. repeat split; assumption.
Qed.

Lemma shifted_trace (q : qref) (v : value cb) (rest : list (value cb))
  (s : State cb W) :
  trace (shifted q v rest s) = trace s ++ [Shift q v (set q rest (qs s))].
Proof. reflexivity. Qed.

Lemma raises_drain (q : qref) (fuel : nat) :
  raises_in_call body (drain body q fuel).
Proof.
  induction fuel as [|n IH]; intros s e s' H; simpl in H.
  - destruct (get q (qs s)); discriminate.
  - destruct (get q (qs s)) as [|task rest]; [discriminate|].
    apply seq_raised in H. destruct H as [H|(s1 & H1 & H2)].
    + exists q, task, (shifted q task rest s). eapply thrown_by_head. exact H.
    + destruct (IH _ _ _ H2) as (q' & v & st & Ht).
      destruct (@obeys_call any_queue "task" task _ _ (done_final _ _ H1))
        as (d & F & _).
      exists q', v, st.
      eapply thrown_by_later; [apply shifted_trace|].
      eapply thrown_by_later; [apply F|exact Ht].
Qed.

Lemma raises_runNextTick (fuel : nat) :
  raises_in_call body (runNextTick body fuel).
Proof.
  unfold runNextTick.
  apply raises_seq with (al := any_queue);
    [apply obeys_log|apply raises_log|].
  apply raises_seq with (al := any_queue);
    [apply obeys_drain; reflexivity|apply raises_drain|apply raises_log].
Qed.

Lemma raises_runMicrotasks (fuel : nat) :
  raises_in_call body (runMicrotasks body fuel).
Proof.
  unfold runMicrotasks.
  apply raises_seq with (al := any_queue);
    [apply obeys_log|apply raises_log|].
  apply raises_seq with (al := any_queue);
    [apply obeys_drain; reflexivity|apply raises_drain|apply raises_log].
Qed.

Lemma raises_phase_loop (queue : qref) (fuel : nat) :
  raises_in_call body (phase_loop body queue fuel).
Proof.
  induction fuel as [|n IH]; intros s e s' H; simpl in H.
  - destruct (get queue (qs s)); discriminate.
  - destruct (get queue (qs s)) as [|callback rest]; [discriminate|].
    apply seq_raised in H. destruct H as [H|(s1 & H1 & H2)].
    + exists queue, callback, (shifted queue callback rest s).
      eapply thrown_by_head. exact H.
    + assert (R : raises_in_call body
                    (seq (runMicrotasks body n) (phase_loop body queue n))).
      { apply raises_seq with (al := any_queue);
          [apply obeys_runMicrotasks; reflexivity
          |apply raises_runMicrotasks|exact IH]. }
      destruct (R _ _ _ H2) as (q' & v & st & Ht).
      destruct (@obeys_call any_queue "callback" callback _ _
                  (done_final _ _ H1)) as (d & F & _).
      exists q', v, st.
      eapply thrown_by_later; [apply shifted_trace|].
      eapply thrown_by_later; [apply F|exact Ht].
Qed.

Lemma raises_runPhase (phase : string) (queue : qref) (fuel : nat) :
  raises_in_call body (runPhase body phase queue fuel).
Proof.
  unfold runPhase.
  apply raises_seq with (al := any_queue);
    [apply obeys_runNextTick; reflexivity|apply raises_runNextTick|].
  apply raises_seq with (al := any_queue);
    [apply obeys_log|apply raises_log|].
  apply raises_seq with (al := any_queue);
    [apply obeys_phase_loop; reflexivity|apply raises_phase_loop
    |apply raises_log].
Qed.

Lemma raises_tick (fuel : nat) : raises_in_call body (tick body fuel).
Proof.
  unfold tick.
  do 5 (apply raises_seq with (al := any_queue);
        [apply obeys_runPhase|apply raises_runPhase|]).
  apply raises_runPhase.
Qed.

(** C7: [tick] catches nothing.  When it ends, by return or by exception,
    every queue holds what was in it or pushed into it and not taken out;
    it returns only when no invocation threw; and when an invocation throws,
    [tick] ends with that exception in the state that invocation left:
    after the item was taken out, only the pushes of that invocation
    happened, so nothing more was invoked or logged, in this phase or a
    later one. *)
Theorem throw_leaves_tick (fuel : nat) (s s' : State cb W)
  (H : final (tick body fuel s) = Some s') :
  exists d,
    trace s' = trace s ++ d /\
    (forall q, shifts_of q d ++ get q (qs s') = get q (qs s) ++ pushes_of q d) /\
    ((tick body fuel s = Done s' /\ faults d = []) \/
     (exists e q v st,
        tick body fuel s = Raised e s' /\ faults d = [e] /\
        thrown_by body s e s' q v st)).
Proof.
  destruct (obeys_tick fuel _ H) as (d & F & O).
  exists d. split; [apply F|]. split.
  - intro q. symmetry. apply (follows_fifo F).
  - destruct (tick body fuel s) as [s1|e s1|] eqn:E; [| |discriminate].
    + left. injection H as <-. split; [reflexivity|exact O].
    + right. injection H as <-.
      destruct (raises_tick _ _ E) as (q & v & st & Ht).
      exists e, q, v, st. split; [reflexivity|]. split; [exact O|exact Ht].
Qed.

(** *** Every push is an enqueue call of the item just taken *)

Lemma pushes_of_push_events (q : qref) (l : list (qref * value cb)) :
  pushes_of q (push_events l) = pushed_to q l.
Proof.
  induction l as [|[q' v] l IH]; simpl; [reflexivity|].
  unfold pushed_to. simpl. destruct (qref_eqb q q'); simpl; rewrite IH;
    reflexivity.
Qed.

(** What an invocation leaves: in the trace, the enqueue calls of the
    callback's body and its exception; in each queue, what was there
    followed by the items of those calls for that queue. *)
Lemma call_delta (name : string) (v : value cb) (s s1 : State cb W) :
  final (call body name v s) = Some s1 ->
  exists l th,
    invoked body v (world s) l th /\
    trace s1 = trace s ++ push_events l ++ th /\
    forall q, get q (qs s1) = get q (qs s) ++ pushed_to q l.
Proof.
  unfold call. intro H. destruct v as [c| | |];
    try (injection H as <-; exists [], [Threw (TypeError (name ++ " is not a function"))];
         split; [split; [reflexivity|eexists; reflexivity]|];
         split; [reflexivity|]; intro q; symmetry; apply app_nil_r).
  destruct (enqueue_all_done (enqueues (body c (world s))) s)
    as (s0 & E & F & _).
  unfold seq in H. rewrite E in H.
  exists (enqueues (body c (world s))).
  assert (K : forall q w, get q (qs (with_world w s0)) =
                          get q (qs s) ++
                          pushed_to q (enqueues (body c (world s)))).
  { intros q w. destruct (follows_untouched q eq_refl F) as (_ & _ & K).
    rewrite <- pushes_of_push_events. exact K. }
  destruct F as (T & _).
  destruct (throws (body c (world s))) as [x|] eqn:Ex; injection H as <-.
  - exists [Threw x]. split; [split; [reflexivity|rewrite Ex; reflexivity]|].
    split; [|intro q; exact (K q _)]. cbn [emit trace with_world]. rewrite T.
    symmetry. apply app_assoc.
  - exists []. split; [split; [reflexivity|rewrite Ex; reflexivity]|].
    split; [|intro q; exact (K q _)]. cbn [trace with_world]. rewrite T, app_nil_r.
    reflexivity.
Qed.

Lemma explained_nil : explained body [].
Proof. exists []. split; [reflexivity|constructor]. Qed.

Lemma explained_app (d1 d2 : list (event cb)) :
  explained body d1 -> explained body d2 -> explained body (d1 ++ d2).
Proof.
  intros (b1 & -> & B1) (b2 & -> & B2). exists (b1 ++ b2).
  split; [symmetry; apply concat_app|]. apply Forall_app. split; assumption.
Qed.

Lemma explained_block (b : list (event cb)) : block body b -> explained body b.
Proof.
  intro B. exists [b]. split; [simpl; symmetry; apply app_nil_r|].
  constructor; [exact B|constructor].
Qed.

Lemma tells_ret : tells body (@ret cb W).
Proof.
  intros s s' H. injection H as <-. exists [].
  split; [symmetry; apply app_nil_r|apply explained_nil].
Qed.

Lemma tells_log (phase msg : string) : tells body (@log cb W phase msg).
Proof.
  intros s s' H. injection H as <-. exists [Log phase msg].
  split; [reflexivity|]. apply explained_block. left. eauto.
Qed.

Lemma tells_seq (a b : M cb W) :
  tells body a -> tells body b -> tells body (seq a b).
Proof.
  intros Ha Hb s s' H. apply seq_final in H.
  destruct H as [[H _]|(s1 & H1 & H2)].
  - apply Ha. exact H.
  - destruct (Ha _ _ (done_final _ _ H1)) as (d1 & T1 & E1).
    destruct (Hb _ _ H2) as (d2 & T2 & E2).
    exists (d1 ++ d2). split; [|apply explained_app; assumption].
    rewrite T2, T1. symmetry. apply app_assoc.
Qed.

(** Taking an item out and invoking it is one block. *)
Lemma tells_step (q : qref) (v : value cb) (rest : list (value cb))
  (name : string) (s s1 : State cb W) :
  final (call body name v (shifted q v rest s)) = Some s1 ->
  exists d, trace s1 = trace s ++ d /\ explained body d.
Proof.
  intro H. destruct (call_delta _ _ _ H) as (l & th & I & T & _).
  exists (Shift q v (set q rest (qs s)) :: push_events l ++ th). split.
  - rewrite T. cbn [shifted emit trace with_queues].
    rewrite <- app_assoc. reflexivity.
  - apply explained_block. right.
    exists q, v, (set q rest (qs s)), (world s), l, th.
    split; [reflexivity|exact I].
Qed.

Lemma tells_drain (q : qref) (fuel : nat) : tells body (drain body q fuel).
Proof.
  induction fuel as [|n IH]; intros s s' H; simpl in H.
  - destruct (get q (qs s)); [|discriminate]. apply tells_ret. exact H.
  - destruct (get q (qs s)) as [|task rest]; [apply tells_ret; exact H|].
    apply seq_final in H. destruct H as [[H _]|(s1 & H1 & H2)].
    + apply (tells_step _ _ _ _ _ H).
    + destruct (tells_step _ _ _ _ _ (done_final _ _ H1)) as (d1 & T1 & E1).
      destruct (IH _ _ H2) as (d2 & T2 & E2).
      exists (d1 ++ d2). split; [|apply explained_app; assumption].
      rewrite T2, T1. symmetry. apply app_assoc.
Qed.

Lemma tells_runNextTick (fuel : nat) : tells body (runNextTick body fuel).
Proof.
  unfold runNextTick. apply tells_seq; [apply tells_log|].
  apply tells_seq; [apply tells_drain|apply tells_log].
Qed.

Lemma tells_runMicrotasks (fuel : nat) : tells body (runMicrotasks body fuel).
Proof.
  unfold runMicrotasks. apply tells_seq; [apply tells_log|].
  apply tells_seq; [apply tells_drain|apply tells_log].
Qed.

Lemma tells_phase_loop (queue : qref) (fuel : nat) :
  tells body (phase_loop body queue fuel).
Proof.
  induction fuel as [|n IH]; intros s s' H; simpl in H.
  - destruct (get queue (qs s)); [|discriminate]. apply tells_ret. exact H.
  - destruct (get queue (qs s)) as [|callback rest];
      [apply tells_ret; exact H|].
    apply seq_final in H. destruct H as [[H _]|(s1 & H1 & H2)].
    + apply (tells_step _ _ _ _ _ H).
    + destruct (tells_step _ _ _ _ _ (done_final _ _ H1)) as (d1 & T1 & E1).
      destruct (tells_seq (tells_runMicrotasks n) IH _ H2) as (d2 & T2 & E2).
      exists (d1 ++ d2). split; [|apply explained_app; assumption].
      rewrite T2, T1. symmetry. apply app_assoc.
Qed.

Lemma tells_runPhase (phase : string) (queue : qref) (fuel : nat) :
  tells body (runPhase body phase queue fuel).
Proof.
  unfold runPhase. apply tells_seq; [apply tells_runNextTick|].
  apply tells_seq; [apply tells_log|].
  apply tells_seq; [apply tells_phase_loop|apply tells_log].
Qed.

Lemma tells_tick (fuel : nat) : tells body (tick body fuel).
Proof.
  unfold tick. do 5 (apply tells_seq; [apply tells_runPhase|]).
  apply tells_runPhase.
Qed.

Lemma tells_ticks (k fuel : nat) : tells body (ticks body k fuel).
Proof.
  induction k as [|k IH]; simpl; [apply tells_ret|].
  apply tells_seq; [apply tells_tick|exact IH].
Qed.


(** *** One phase *)

Lemma either_left (q1 q2 : qref) : either q1 q2 q1 = true.
Proof. unfold either. rewrite qref_eqb_refl. reflexivity. Qed.

Lemma either_right (q1 q2 : qref) : either q1 q2 q2 = true.
Proof. unfold either. rewrite qref_eqb_refl. apply orb_true_r. Qed.

(** The phase loop returns either at once or after a [runMicrotasks]. *)
Lemma phase_loop_microtasks (queue : qref) (fuel : nat) (s s' : State cb W) :
  phase_loop body queue fuel s = Done s' ->
  s' = s \/ microtasks (qs s') = [].
Proof.
  revert s. induction fuel as [|n IH]; intros s H; simpl in H.
  - destruct (get queue (qs s)); [|discriminate]. left. congruence.
  - destruct (get queue (qs s)) as [|callback rest]; [left; congruence|].
    right. apply seq_done in H. destruct H as (s1 & _ & H).
    apply seq_done in H. destruct H as (s2 & Hm & H).
    apply runMicrotasks_done in Hm.
    destruct (IH _ H) as [->|E]; assumption.
Qed.

Lemma runPhase_phase_run (phase : string) (queue : qref) (fuel : nat)
  (s s' : State cb W) :
  is_phase queue = true ->
  runPhase body phase queue fuel s = Done s' ->
  phase_run body phase queue fuel s s'.
Proof.
  intros Hp H. split; [exact H|]. unfold runPhase in H.
  apply seq_done in H. destruct H as (s1 & H1 & H).
  apply seq_done in H. destruct H as (s2 & H2 & H).
  apply seq_done in H. destruct H as (s3 & H3 & H4).
  assert (E2 : s2 = emit (started phase) s1) by
    (injection H2 as E; symmetry; exact E).
  assert (E4 : s' = emit (completed phase) s3) by
    (injection H4 as E; symmetry; exact E).
  subst s2 s'.
  destruct (@obeys_runNextTick (only QNextTick) fuel eq_refl _ _
              (done_final _ _ H1)) as (d1 & F1 & _).
  destruct (@obeys_phase_loop (either queue QMicrotasks) queue fuel
              (either_left _ _) (either_right _ _) _ _
              (done_final _ _ H3)) as (d2 & F2 & _).
  exists d1, d2.
  pose proof F1 as (T1 & _ & _ & S1). pose proof F2 as (T2 & _ & _ & S2).
  destruct (tells_runNextTick fuel _ (done_final _ _ H1)) as (e1 & U1 & X1).
  destruct (tells_phase_loop queue fuel _ (done_final _ _ H3))
    as (e2 & U2 & X2).
  assert (Y1 : explained body d1).
  { replace d1 with e1; [exact X1|].
    apply (app_inv_head (trace s)). rewrite <- U1. exact T1. }
  assert (Y2 : explained body d2).
  { replace d2 with e2; [exact X2|].
    apply (app_inv_head (trace (emit (started phase) s1))).
    rewrite <- U2. exact T2. }
  split; [|split; [exact S1|split; [|split; [exact S2|split;
    [|split; [exact Y1|split; [exact Y2|split; [|split; [|split]]]]]]]]].
  - cbn [emit trace]. rewrite T2. cbn [emit trace]. rewrite T1.
    repeat rewrite <- app_assoc. reflexivity.
  - apply (follows_emptied QNextTick F1). apply (runNextTick_done _ _ H1).
  - assert (On : only QNextTick queue = false)
      by (destruct queue; try reflexivity; discriminate).
    destruct (follows_untouched queue On F1) as (_ & _ & K1).
    rewrite (follows_emptied queue F2 (phase_loop_done _ _ _ H3)).
    change (qs (emit (started phase) s1)) with (qs s1).
    rewrite K1, pushes_of_app, app_assoc. reflexivity.
  - eapply marks_delta; [exact T1|]. apply (@writes_runNextTick fuel s s1 H1).
  - eapply marks_delta; [exact T2|].
    apply (@writes_phase_loop queue fuel _ _ H3).
  - apply (phase_loop_done _ _ _ H3).
  - intro N. destruct (phase_loop_microtasks _ _ _ H3) as [E|E]; [|exact E].
    contradiction N. replace d2 with (@nil (event cb)); [reflexivity|].
    apply (app_inv_head (trace (emit (started phase) s1))).
    rewrite app_nil_r, <- T2, E. reflexivity.
Qed.


(** *** The start of a phase *)


(** *** The queues when a phase item is taken *)

Lemma seq_final_follows (al : qref -> bool) (a b : M cb W)
  (s s' : State cb W) :
  obeys al a -> final (seq a b s) = Some s' ->
  (exists d, follows al s d s') \/
  (exists s1 d1, a s = Done s1 /\ follows al s d1 s1 /\
                 final (b s1) = Some s').
Proof.
  intros Ho H. apply seq_final in H. destruct H as [[H _]|(s1 & H1 & H2)].
  - left. destruct (Ho _ _ H) as (d & F & _). exists d. exact F.
  - right. destruct (Ho _ _ (done_final _ _ H1)) as (d1 & F1 & _).
    exists s1, d1. auto.
Qed.

Lemma phase_not_priority (queue : qref) :
  is_phase queue = true ->
  queue <> QNextTick /\ queue <> QMicrotasks /\
  only QNextTick queue = false /\ only QMicrotasks queue = false.
Proof. destruct queue; simpl; intro H; try discriminate; repeat split; discriminate. Qed.

Lemma phase_loop_snapshots (queue : qref) (fuel : nat) (s s' : State cb W) :
  is_phase queue = true ->
  final (phase_loop body queue fuel s) = Some s' ->
  exists d, trace s' = trace s ++ d /\
    match snapshots_of queue d with
    | [] => True
    | x :: l => (exists rest, x = set queue rest (qs s)) /\
                Forall (fun y => microtasks y = []) l
    end.
Proof.
  intros Hp. destruct (phase_not_priority _ Hp) as (Nn & Nm & On & Om).
  revert s. induction fuel as [|n IH]; intros s H; simpl in H.
  - destruct (get queue (qs s)); [|discriminate]. injection H as <-.
    exists []. split; [symmetry; apply app_nil_r|exact I].
  - destruct (get queue (qs s)) as [|callback rest] eqn:Hq.
    { injection H as <-. exists []. split; [symmetry; apply app_nil_r|exact I]. }
    destruct (@seq_final_follows _ _ _ _ _
                  (obeys_call no_queue "callback" callback) H)
      as [(d1 & F1)|(s1 & d1 & _ & F1 & H1)].
    + exists ([Shift queue callback (set queue rest (qs s))] ++ d1). split.
      * destruct F1 as (T1 & _). rewrite T1, shifted_trace.
        symmetry. apply app_assoc.
      * simpl. rewrite qref_eqb_refl.
        destruct (follows_untouched queue eq_refl F1) as (_ & Z & _).
        rewrite Z. split; [exists rest; reflexivity|constructor].
    + destruct (@seq_final_follows _ _ _ _ _
                  (@obeys_runMicrotasks (only QMicrotasks) n eq_refl) H1)
        as [(d2 & F2)|(s2 & d2 & E2 & F2 & H2)].
      * exists ([Shift queue callback (set queue rest (qs s))] ++ d1 ++ d2).
        split.
        { destruct F1 as (T1 & _). destruct F2 as (T2 & _).
          rewrite T2, T1, shifted_trace. repeat rewrite <- app_assoc.
          reflexivity. }
        simpl. rewrite qref_eqb_refl, snapshots_of_app.
        destruct (follows_untouched queue eq_refl F1) as (_ & Z1 & _).
        destruct (follows_untouched queue Om F2) as (_ & Z2 & _).
        rewrite Z1, Z2. split; [exists rest; reflexivity|constructor].
      * destruct (IH _ H2) as (d3 & T3 & K).
        exists ([Shift queue callback (set queue rest (qs s))] ++ d1 ++ d2 ++ d3).
        split.
        { destruct F1 as (T1 & _). destruct F2 as (T2 & _).
          rewrite T3, T2, T1, shifted_trace. repeat rewrite <- app_assoc.
          reflexivity. }
        simpl. rewrite qref_eqb_refl. repeat rewrite snapshots_of_app.
        destruct (follows_untouched queue eq_refl F1) as (_ & Z1 & _).
        destruct (follows_untouched queue Om F2) as (_ & Z2 & _).
        rewrite Z1, Z2. simpl. split; [exists rest; reflexivity|].
        destruct (snapshots_of queue d3) as [|x l]; [constructor|].
        destruct K as ((rest3 & ->) & K). constructor; [|exact K].
        change (get QMicrotasks (set queue rest3 (qs s2)) = []).
        rewrite get_set_other by exact Nm.
        apply (runMicrotasks_done _ _ E2).
Qed.

(** C2, as the code has it: within one [runPhase] of a phase queue, whether
    it returns or throws, [nextTick] is empty when the first item of the
    phase queue is taken out for invocation, and [microtasks] is empty when
    each later one is. *)
Theorem removals_in_phase (phase : string) (queue : qref) (fuel : nat)
  (s s' : State cb W) (Hp : is_phase queue = true)
  (H : final (runPhase body phase queue fuel s) = Some s') :
  exists d, trace s' = trace s ++ d /\ removals_ok (snapshots_of queue d).
Proof.
  destruct (phase_not_priority _ Hp) as (Nn & Nm & On & Om).
  unfold runPhase in H.
  destruct (@seq_final_follows _ _ _ _ _
                  (@obeys_runNextTick (only QNextTick) fuel eq_refl) H)
    as [(d1 & F1)|(s1 & d1 & E1 & F1 & H1)].
  { exists d1. split; [apply F1|].
    destruct (follows_untouched queue On F1) as (_ & Z & _).
    rewrite Z. exact I. }
  destruct (follows_untouched queue On F1) as (_ & Z1 & _).
  pose proof (runNextTick_done _ _ E1) as N1.
  unfold seq at 1 in H1. unfold log at 1 in H1.
  apply seq_final in H1.
  destruct H1 as [[H1 _]|(s3 & H3 & H4)].
  - destruct (phase_loop_snapshots _ _ _ Hp H1) as (d2 & T2 & K).
    exists (d1 ++ [started phase] ++ d2). split.
    { destruct F1 as (T1 & _). rewrite T2. cbn [emit trace]. rewrite T1.
      repeat rewrite <- app_assoc. reflexivity. }
    rewrite snapshots_of_app, Z1. simpl.
    destruct (snapshots_of queue d2) as [|x l]; [exact I|].
    destruct K as ((rest & ->) & K). split; [|exact K].
    change (get QNextTick (set queue rest (qs s1)) = []).
    rewrite get_set_other by exact Nn. exact N1.
  - destruct (phase_loop_snapshots _ _ _ Hp (done_final _ _ H3))
      as (d2 & T2 & K).
    injection H4 as <-.
    exists (d1 ++ [started phase] ++ d2 ++ [completed phase]). split.
    { destruct F1 as (T1 & _). cbn [emit trace]. rewrite T2.
      cbn [emit trace]. rewrite T1.
      repeat rewrite <- app_assoc. reflexivity. }
    rewrite snapshots_of_app, Z1. simpl. rewrite snapshots_of_app. simpl.
    rewrite app_nil_r.
    destruct (snapshots_of queue d2) as [|x l]; [exact I|].
    destruct K as ((rest & ->) & K). split; [|exact K].
    change (get QNextTick (set queue rest (qs s1)) = []).
    rewrite get_set_other by exact Nn. exact N1.
Qed.

(** *** After each phase item *)

Lemma phase_loop_turn (queue : qref) (callback : value cb)
  (rest : list (value cb)) (fuel : nat) (s s' : State cb W) :
  is_phase queue = true ->
  get queue (qs s) = callback :: rest ->
  phase_loop body queue (S fuel) s = Done s' ->
  turn body queue callback rest fuel s s'.
Proof.
  intros Hp Hq H. unfold turn. destruct (phase_not_priority _ Hp) as (Nn & Nm & On & Om).
  simpl in H. rewrite Hq in H.
  apply seq_done in H. destruct H as (s1 & H1 & H).
  apply seq_done in H. destruct H as (s2 & H2 & H3).
  destruct (@obeys_call no_queue "callback" callback _ _ (done_final _ _ H1))
    as (d1 & F1 & _).
  destruct (@obeys_runMicrotasks (only QMicrotasks) fuel eq_refl _ _
              (done_final _ _ H2)) as (d2 & F2 & _).
  destruct (@obeys_phase_loop (either queue QMicrotasks) queue fuel
              (either_left _ _) (either_right _ _) _ _
              (done_final _ _ H3)) as (d3 & F3 & _).
  pose proof (runMicrotasks_done _ _ H2) as E2.
  assert (En : either queue QMicrotasks QNextTick = false).
  { unfold either. rewrite (qref_eqb_neq Nn). reflexivity. }
  destruct (follows_untouched QMicrotasks eq_refl F1) as (_ & _ & K1).
  destruct (follows_untouched QNextTick eq_refl F1) as (Z1 & _ & L1).
  destruct (follows_untouched QNextTick eq_refl F2) as (Z2 & _ & L2).
  destruct (follows_untouched QNextTick En F3) as (Z3 & _ & L3).
  assert (Gm : get QMicrotasks (qs (shifted queue callback rest s)) =
               get QMicrotasks (qs s)).
  { apply get_set_other. exact Nm. }
  assert (Gn : get QNextTick (qs (shifted queue callback rest s)) =
               get QNextTick (qs s)).
  { apply get_set_other. exact Nn. }
  exists s1, s2, d1, d2, d3.
  split; [exact H1|]. split.
  { destruct F1 as (T1 & _). rewrite T1, shifted_trace.
    rewrite <- app_assoc. reflexivity. }
  split; [exact H2|]. split; [apply F2|]. split; [exact H3|].
  split; [apply F3|]. split.
  { simpl in K1, Gm. rewrite K1, Gm. reflexivity. }
  split; [apply F2|]. split; [apply (follows_emptied QMicrotasks F2 E2)|].
  split; [exact E2|]. split.
  { repeat rewrite shifts_of_app. rewrite Z1, Z2, Z3. reflexivity. }
  simpl in L1, L2, L3, Gn. repeat rewrite pushes_of_app.
  rewrite L3, L2, L1, Gn. repeat rewrite <- app_assoc. reflexivity.
Qed.

(** *** Enough fuel *)

Section Termination.

Variable wt : cb -> nat.
Hypothesis finite : finite_callbacks body wt.

Lemma load_set (q : qref) (l : list (value cb)) (x : Queues cb) :
  load wt (set q l x) + queue_weight wt (get q x) =
  load wt x + queue_weight wt l.
Proof. destruct q; unfold load; simpl; lia. Qed.

Lemma queue_weight_app (l1 l2 : list (value cb)) :
  queue_weight wt (l1 ++ l2) = queue_weight wt l1 + queue_weight wt l2.
Proof. unfold queue_weight. rewrite map_app. apply list_sum_app. Qed.

Lemma load_push (q : qref) (v : value cb) (s s' : State cb W) :
  push q v s = Done s' -> load wt (qs s') = load wt (qs s) + vweight wt v.
Proof.
  intro H. injection H as <-.
  change (qs (emit (Push q v)
            (with_queues (fun x => set q (get q x ++ [v]) x) s)))
    with (set q (get q (qs s) ++ [v]) (qs s)).
  pose proof (load_set q (get q (qs s) ++ [v]) (qs s)) as E.
  rewrite queue_weight_app in E. unfold queue_weight at 3 in E.
  simpl in E. lia.
Qed.

Lemma load_enqueue_all (l : list (qref * value cb)) (s s' : State cb W) :
  enqueue_all l s = Done s' ->
  load wt (qs s') = load wt (qs s) + pushed_weight wt l.
Proof.
  revert s. induction l as [|[q v] l IH]; intros s H; simpl in H.
  - injection H as <-. unfold pushed_weight. simpl. lia.
  - apply seq_done in H. destruct H as (s1 & H1 & H2).
    rewrite enqueue_push in H1.
    rewrite (IH _ H2), (load_push H1).
    unfold pushed_weight. simpl. lia.
Qed.

Lemma load_shifted (q : qref) (v : value cb) (rest : list (value cb))
  (s : State cb W) :
  get q (qs s) = v :: rest ->
  load wt (qs (shifted q v rest s)) + vweight wt v = load wt (qs s).
Proof.
  intro Hq.
  change (qs (shifted q v rest s)) with (set q rest (qs s)).
  pose proof (load_set q rest (qs s)) as E. rewrite Hq in E.
  unfold queue_weight in E. simpl in E. unfold queue_weight. lia.
Qed.

Lemma vweight_pos (w : W) (v : value cb) : 1 <= vweight wt v.
Proof.
  destruct v as [c| | |]; simpl; try apply Nat.le_refl.
  pose proof (finite c w). lia.
Qed.

(** An invocation always ends, and what it pushes weighs less than it. *)
Lemma load_call (name : string) (v : value cb) (s : State cb W) :
  call body name v s <> Timeout /\
  forall s', final (call body name v s) = Some s' ->
             load wt (qs s') < load wt (qs s) + vweight wt v.
Proof.
  unfold call. destruct v as [c| | |];
    try (split; [discriminate|]; intros s' H; injection H as <-;
         simpl; change (qs (emit _ s)) with (qs s); lia).
  destruct (enqueue_all_done (enqueues (body c (world s))) s) as (s1 & E & _).
  unfold seq. rewrite E. pose proof (load_enqueue_all _ _ E) as L.
  pose proof (finite c (world s)) as Hf.
  destruct (throws (body c (world s))); (split; [discriminate|]);
    intros s' H; injection H as <-; simpl;
    match goal with |- load wt (qs ?x) < _ => change (qs x) with (qs s1) end;
    lia.
Qed.

Lemma settles_seq (n : nat) (a b : M cb W) :
  settles wt n a -> settles wt n b -> settles wt n (seq a b).
Proof.
  intros Ha Hb s Hs. destruct (Ha s Hs) as [Na La]. unfold seq.
  destruct (a s) as [s1|e s1|] eqn:E.
  - assert (L1 : load wt (qs s1) <= load wt (qs s)) by (apply La; reflexivity).
    destruct (Hb s1) as [Nb Lb]; [lia|]. split; [exact Nb|].
    intros s' H. specialize (Lb s' H). lia.
  - split; [discriminate|]. exact La.
  - contradiction Na. reflexivity.
Qed.

Lemma settles_log (n : nat) (phase msg : string) :
  settles wt n (@log cb W phase msg).
Proof.
  intros s _. split; [discriminate|]. intros s' H. injection H as <-.
  apply Nat.le_refl.
Qed.

Lemma settles_drain (q : qref) (n : nat) : settles wt n (drain body q n).
Proof.
  induction n as [|n IH]; intros s Hs; simpl.
  - destruct (get q (qs s)) as [|task rest] eqn:Hq.
    + split; [discriminate|]. intros s' H. injection H as <-. lia.
    + pose proof (load_shifted _ _ Hq) as L.
      pose proof (vweight_pos (world s) task). exfalso. lia.
  - destruct (get q (qs s)) as [|task rest] eqn:Hq.
    + split; [discriminate|]. intros s' H. injection H as <-. lia.
    + pose proof (load_shifted _ _ Hq) as L.
      destruct (load_call "task" task (shifted q task rest s)) as [N C].
      unfold seq.
      destruct (call body "task" task (shifted q task rest s)) as [s1|e s1|];
        [| |contradiction N; reflexivity].
      * specialize (C _ eq_refl). destruct (IH s1) as [Nd Ld]; [lia|].
        split; [exact Nd|]. intros s' H. specialize (Ld s' H). lia.
      * specialize (C _ eq_refl). split; [discriminate|].
        intros s' H. injection H as <-. lia.
Qed.

Lemma settles_more (n m : nat) (f : M cb W) :
  n <= m -> settles wt m f -> settles wt n f.
Proof. intros Hle H s Hs. apply H. lia. Qed.

Lemma settles_runNextTick (n m : nat) :
  n <= m -> settles wt n (runNextTick body m).
Proof.
  intro Hle. unfold runNextTick.
  apply settles_seq; [apply settles_log|].
  apply settles_seq; [|apply settles_log].
  apply settles_more with (m := m); [exact Hle|apply settles_drain].
Qed.

Lemma settles_runMicrotasks (n m : nat) :
  n <= m -> settles wt n (runMicrotasks body m).
Proof.
  intro Hle. unfold runMicrotasks.
  apply settles_seq; [apply settles_log|].
  apply settles_seq; [|apply settles_log].
  apply settles_more with (m := m); [exact Hle|apply settles_drain].
Qed.

Lemma settles_phase_loop (queue : qref) (n : nat) :
  settles wt n (phase_loop body queue n).
Proof.
  induction n as [|n IH]; intros s Hs; simpl.
  - destruct (get queue (qs s)) as [|callback rest] eqn:Hq.
    + split; [discriminate|]. intros s' H. injection H as <-. lia.
    + pose proof (load_shifted _ _ Hq) as L.
      pose proof (vweight_pos (world s) callback). exfalso. lia.
  - destruct (get queue (qs s)) as [|callback rest] eqn:Hq.
    + split; [discriminate|]. intros s' H. injection H as <-. lia.
    + pose proof (load_shifted _ _ Hq) as L.
      destruct (load_call "callback" callback (shifted queue callback rest s))
        as [N C].
      pose proof (@settles_seq n _ _ (settles_runMicrotasks (Nat.le_refl n)) IH)
        as K.
      set (k := seq (runMicrotasks body n) (phase_loop body queue n)) in *.
      unfold seq.
      destruct (call body "callback" callback (shifted queue callback rest s))
        as [s1|e s1|]; [| |contradiction N; reflexivity].
      * specialize (C _ eq_refl).
        destruct (K s1) as [Nd Ld]; [lia|].
        split; [exact Nd|]. intros s' H. specialize (Ld s' H). lia.
      * specialize (C _ eq_refl). split; [discriminate|].
        intros s' H. injection H as <-. lia.
Qed.

Lemma settles_runPhase (phase : string) (queue : qref) (n m : nat) :
  n <= m -> settles wt n (runPhase body phase queue m).
Proof.
  intro Hle. unfold runPhase.
  apply settles_seq; [apply settles_runNextTick; exact Hle|].
  apply settles_seq; [apply settles_log|].
  apply settles_seq; [|apply settles_log].
  apply settles_more with (m := m); [exact Hle|apply settles_phase_loop].
Qed.

(** When every function object weighs more than what it pushes, a tick
    with at least as much fuel as the queues weigh ends, by return or by
    exception. *)
Lemma tick_ends (fuel : nat) (s : State cb W) :
  load wt (qs s) <= fuel -> tick body fuel s <> Timeout.
Proof.
  intro Hs.
  assert (St : settles wt fuel (tick body fuel)).
  { unfold tick.
    do 5 (apply settles_seq; [apply settles_runPhase; apply Nat.le_refl|]).
    apply settles_runPhase. apply Nat.le_refl. }
  apply (St s Hs).
Qed.

End Termination.

(** *** The tick, phase by phase *)

Lemma seq_ret (a : M cb W) (s : State cb W) : seq a (@ret cb W) s = a s.
Proof. unfold seq, ret. destruct (a s); reflexivity. Qed.

Lemma tick_run_phases (fuel : nat) (s : State cb W) :
  tick body fuel s = run_phases body phases fuel s.
Proof.
  unfold tick, phases. simpl. unfold seq.
  destruct (runPhase body TIMERS QTimers fuel s) as [s1| |]; try reflexivity.
  destruct (runPhase body PENDING_CALLBACKS QPendingCallbacks fuel s1)
    as [s2| |]; try reflexivity.
  destruct (runPhase body IDLE_PREPARE QIdlePrepare fuel s2)
    as [s3| |]; try reflexivity.
  destruct (runPhase body POLL QPoll fuel s3) as [s4| |]; try reflexivity.
  destruct (runPhase body CHECK QCheck fuel s4) as [s5| |]; try reflexivity.
  destruct (runPhase body CLOSE_CALLBACKS QCloseCallbacks fuel s5);
    reflexivity.
Qed.

Lemma run_phases_app (l1 l2 : list (string * qref)) (fuel : nat)
  (s : State cb W) :
  run_phases body (l1 ++ l2) fuel s =
  seq (run_phases body l1 fuel) (run_phases body l2 fuel) s.
Proof.
  revert s. induction l1 as [|[p q] l1 IH]; intro s; simpl; [reflexivity|].
  unfold seq. destruct (runPhase body p q fuel s); try reflexivity.
  rewrite IH. reflexivity.
Qed.

Lemma among_priority (l : list qref) :
  among l QNextTick = true /\ among l QMicrotasks = true.
Proof. split; reflexivity. Qed.

Lemma among_head (q : qref) (l : list qref) : among (q :: l) q = true.
Proof.
  unfold among. simpl. rewrite qref_eqb_refl. simpl. apply orb_true_r.
Qed.

Lemma among_tail (q : qref) (l : list qref) (q' : qref) :
  among l q' = true -> among (q :: l) q' = true.
Proof.
  unfold among. simpl. intro H. apply orb_true_iff in H.
  destruct H as [H|H]; rewrite H; simpl;
    repeat rewrite orb_true_r; reflexivity.
Qed.

Lemma among_out (l : list qref) (q : qref) :
  is_phase q = true -> ~ In q l -> among l q = false.
Proof.
  intros Hp Hn. unfold among. rewrite Hp. simpl.
  destruct (existsb (qref_eqb q) l) eqn:E; [|reflexivity].
  apply existsb_exists in E. destruct E as (x & Hx & E).
  apply qref_eqb_eq in E. subst x. contradiction.
Qed.

Lemma obeys_runPhase_among (phase : string) (queue : qref) (fuel : nat)
  (l : list qref) :
  obeys (among (queue :: l)) (runPhase body phase queue fuel).
Proof.
  unfold runPhase.
  apply obeys_seq; [apply obeys_runNextTick; reflexivity|].
  apply obeys_seq; [apply obeys_log|].
  apply obeys_seq; [|apply obeys_log].
  apply obeys_phase_loop; [apply among_head|reflexivity].
Qed.

Lemma obeys_run_phases (l : list (string * qref)) (fuel : nat) :
  obeys (among (map snd l)) (run_phases body l fuel).
Proof.
  induction l as [|[p q] l IH]; simpl.
  - apply obeys_ret.
  - apply obeys_seq; [apply obeys_runPhase_among|].
    eapply obeys_weaken; [|exact IH]. intro q'. apply among_tail.
Qed.

(** *** What the drains leave alone *)

(** [runNextTick] and [runMicrotasks] take items out of their own queue
    only: whether they return or throw, every other queue holds what it
    held, followed by what was pushed into it. *)
Theorem drains_keep_other_queues (fuel : nat) (s s1 t t1 : State cb W)
  (q : qref)
  (Hn : final (runNextTick body fuel s) = Some s1)
  (Hm : final (runMicrotasks body fuel t) = Some t1) :
  (exists d, trace s1 = trace s ++ d /\
     (q <> QNextTick ->
      shifts_of q d = [] /\ get q (qs s1) = get q (qs s) ++ pushes_of q d)) /\
  (exists d, trace t1 = trace t ++ d /\
     (q <> QMicrotasks ->
      shifts_of q d = [] /\ get q (qs t1) = get q (qs t) ++ pushes_of q d)).
Proof.
  split.
  - destruct (@obeys_runNextTick (only QNextTick) fuel eq_refl _ _ Hn)
      as (d & F & _).
    exists d. split; [apply F|]. intro N.
    destruct (follows_untouched q (qref_eqb_neq (not_eq_sym N)) F)
      as (Z & _ & K). auto.
  - destruct (@obeys_runMicrotasks (only QMicrotasks) fuel eq_refl _ _ Hm)
      as (d & F & _).
    exists d. split; [apply F|]. intro N.
    destruct (follows_untouched q (qref_eqb_neq (not_eq_sym N)) F)
      as (Z & _ & K). auto.
Qed.

(** [runNextTickAndMicrotasks], when it returns, leaves [microtasks] empty
    and has invoked items of the two priority queues only; [nextTick] need
    not be empty: it holds what the microtasks pushed into it, and every
    phase queue holds what it held followed by what was pushed into it. *)
Theorem flush_leaves (fuel : nat) (s s' : State cb W)
  (H : runNextTickAndMicrotasks body fuel s = Done s') :
  exists s1 d1 d2,
    runNextTick body fuel s = Done s1 /\
    runMicrotasks body fuel s1 = Done s' /\
    trace s1 = trace s ++ d1 /\
    trace s' = trace s1 ++ d2 /\
    microtasks (qs s') = [] /\
    nextTick (qs s') = pushes_of QNextTick d2 /\
    shifts_of QNextTick d1 = nextTick (qs s) ++ pushes_of QNextTick d1 /\
    shifts_of QMicrotasks d2 =
      microtasks (qs s) ++ pushes_of QMicrotasks (d1 ++ d2) /\
    forall q, is_phase q = true ->
      shifts_of q (d1 ++ d2) = [] /\
      get q (qs s') = get q (qs s) ++ pushes_of q (d1 ++ d2).
Proof.
  unfold runNextTickAndMicrotasks in H.
  apply seq_done in H. destruct H as (s1 & H1 & H2).
  destruct (@obeys_runNextTick (only QNextTick) fuel eq_refl _ _
              (done_final _ _ H1)) as (d1 & F1 & _).
  destruct (@obeys_runMicrotasks (only QMicrotasks) fuel eq_refl _ _
              (done_final _ _ H2)) as (d2 & F2 & _).
  pose proof (runNextTick_done _ _ H1) as E1.
  pose proof (runMicrotasks_done _ _ H2) as E2.
  exists s1, d1, d2.
  split; [exact H1|]. split; [exact H2|]. split; [apply F1|].
  split; [apply F2|]. split; [exact E2|].
  destruct (follows_untouched QNextTick eq_refl F2) as (_ & _ & K2).
  destruct (follows_untouched QMicrotasks eq_refl F1) as (_ & _ & K1).
  split; [simpl in K2; rewrite K2, E1; reflexivity|].
  split; [apply (follows_emptied QNextTick F1 E1)|].
  split.
  { rewrite (follows_emptied QMicrotasks F2 E2). simpl in K1. simpl.
    rewrite K1, pushes_of_app, app_assoc. reflexivity. }
  intros q Hp. destruct (phase_not_priority _ Hp) as (_ & _ & On & Om).
  destruct (follows_untouched q On F1) as (Z1 & _ & L1).
  destruct (follows_untouched q Om F2) as (Z2 & _ & L2).
  rewrite shifts_of_app, pushes_of_app, Z1, Z2, L2, L1, app_assoc.
  split; reflexivity.
Qed.

(** [runPhase] on the queue of one phase takes no item out of the queue of
    another phase, whether it returns or throws: that queue holds what it
    held, followed by what was pushed into it. *)
Theorem runPhase_keeps_other_phases (phase : string) (queue q : qref)
  (fuel : nat) (s s' : State cb W)
  (Hp : is_phase q = true) (Hq : q <> queue)
  (H : final (runPhase body phase queue fuel s) = Some s') :
  exists d, trace s' = trace s ++ d /\
            shifts_of q d = [] /\
            get q (qs s') = get q (qs s) ++ pushes_of q d.
Proof.
  destruct (@obeys_runPhase_among phase queue fuel [] _ _ H) as (d & F & _).
  exists d. split; [apply F|].
  assert (A : among [queue] q = false).
  { apply among_out; [exact Hp|]. simpl. intros [E|[]]. congruence. }
  destruct (follows_untouched q A F) as (Z & _ & K). auto.
Qed.

(** *** The flag *)

(** No method writes [running]: after any enqueue calls and any number of
    ticks on a new simulator, however they end, it is still [false]. *)
Theorem running_stays_false (l : list (qref * value cb)) (k fuel : nat)
  (w : W) (s' : State cb W)
  (H : final (seq (enqueue_all l) (ticks body k fuel)
                  (mkState constructor w [])) = Some s') :
  running (this s') = false.
Proof.
  destruct (enqueue_all_done l (mkState constructor w []))
    as (s1 & E & F1 & _).
  unfold seq in H. rewrite E in H.
  destruct (obeys_ticks k fuel _ H) as (d & F2 & _).
  destruct F1 as (_ & _ & R1 & _). destruct F2 as (_ & _ & R2 & _).
  rewrite R2, R1. reflexivity.
Qed.

(** *** Microtasks alone *)

Lemma tick_idle (fuel : nat) (x : EventLoopSimulator cb) (w : W)
  (tr : list (event cb)) :
  only_microtasks (queues x) ->
  tick body fuel (mkState x w tr) = Done (mkState x w (tr ++ idle_tick)).
Proof.
  intro H. unfold tick, seq.
  assert (N : nextTick (queues x) = []) by (apply (H QNextTick); discriminate).
  assert (E : forall q, is_phase q = true -> get q (queues x) = []).
  { intros q Hp. apply H. intro. subst q. discriminate. }
  rewrite (runPhase_idle _ QTimers fuel x w _ N (E QTimers eq_refl)).
  rewrite (runPhase_idle _ QPendingCallbacks fuel x w _ N (E QPendingCallbacks eq_refl)).
  rewrite (runPhase_idle _ QIdlePrepare fuel x w _ N (E QIdlePrepare eq_refl)).
  rewrite (runPhase_idle _ QPoll fuel x w _ N (E QPoll eq_refl)).
  rewrite (runPhase_idle _ QCheck fuel x w _ N (E QCheck eq_refl)).
  rewrite (runPhase_idle _ QCloseCallbacks fuel x w _ N (E QCloseCallbacks eq_refl)).
  unfold idle_tick. repeat rewrite <- app_assoc. reflexivity.
Qed.

(** When only [microtasks] holds items, no number of ticks invokes any of
    them: each tick returns, whatever the fuel, with the simulator as it
    was. *)
Theorem microtasks_alone_never_run (k fuel : nat) (s : State cb W)
  (H : only_microtasks (qs s)) :
  exists s',
    ticks body k fuel s = Done s' /\
    this s' = this s /\ world s' = world s /\
    calls (trace s') = calls (trace s).
Proof.
  revert s H. induction k as [|k IH]; intros s H; simpl.
  - exists s. repeat split; reflexivity.
  - destruct s as [x w tr]. unfold seq. rewrite (@tick_idle fuel x w tr H).
    destruct (IH (mkState x w (tr ++ idle_tick)) H) as (s' & E & T & Wd & C).
    exists s'. split; [exact E|]. split; [exact T|]. split; [exact Wd|].
    rewrite C. cbn [trace].
    clear. induction tr as [|e tr IHt]; simpl; [reflexivity|].
    destruct e; simpl; congruence.
Qed.

(** *** What a tick leaves queued *)

Lemma phases_split (l1 l2 : list (string * qref)) (p : string) (q : qref) :
  phases = l1 ++ (p, q) :: l2 ->
  is_phase q = true /\ ~ In q (map snd l1) /\ ~ In q (map snd l2).
Proof.
  intro E.
  assert (P : Forall (fun q => is_phase q = true) (map snd phases))
    by (repeat constructor).
  assert (D : NoDup (map snd phases)).
  { repeat constructor; simpl; intuition discriminate. }
  rewrite E, map_app in P, D. simpl in P, D.
  apply Forall_app in P. destruct P as [_ P]. inversion P; subst.
  apply NoDup_remove_2 in D. split; [assumption|].
  split; intro I; apply D; apply in_or_app; auto.
Qed.

Lemma run_phases_done_split (l1 l2 : list (string * qref)) (p : string)
  (q : qref) (fuel : nat) (s s' : State cb W) :
  run_phases body (l1 ++ (p, q) :: l2) fuel s = Done s' ->
  exists s1 s2,
    run_phases body l1 fuel s = Done s1 /\
    runPhase body p q fuel s1 = Done s2 /\
    run_phases body l2 fuel s2 = Done s'.
Proof.
  intro H. rewrite run_phases_app in H.
  apply seq_done in H. destruct H as (s1 & H1 & H). simpl in H.
  apply seq_done in H. destruct H as (s2 & H2 & H3).
  exists s1, s2. auto.
Qed.


(** When a tick returns, [nextTick] holds exactly what was pushed into it
    after the start line of the last phase, closeCallbacks: nothing is
    taken out of [nextTick] after that line. *)
Theorem tick_leaves_late_nextTick (fuel : nat) (s s' : State cb W)
  (H : tick body fuel s = Done s') :
  exists d1 d2,
    trace s' =
      trace s ++ d1 ++ started CLOSE_CALLBACKS :: d2 ++
      [completed CLOSE_CALLBACKS] /\
    shifts_of QNextTick d2 = [] /\
    nextTick (qs s') = pushes_of QNextTick d2.
Proof.
  rewrite tick_run_phases in H.
  change phases with
    ([(TIMERS, QTimers); (PENDING_CALLBACKS, QPendingCallbacks);
      (IDLE_PREPARE, QIdlePrepare); (POLL, QPoll); (CHECK, QCheck)] ++
     (CLOSE_CALLBACKS, QCloseCallbacks) :: []) in H.
  destruct (@run_phases_done_split _ _ _ _ _ _ _ H) as (s1 & s2 & H1 & H2 & H3).
  injection H3 as <-.
  destruct (obeys_run_phases _ fuel _ (done_final _ _ H1)) as (d0 & F0 & _).
  unfold runPhase in H2.
  apply seq_done in H2. destruct H2 as (sa & Ha & H2).
  apply seq_done in H2. destruct H2 as (sb & Hb & H2).
  apply seq_done in H2. destruct H2 as (sc & Hc & Hd).
  assert (Eb : sb = emit (started CLOSE_CALLBACKS) sa) by
    (injection Hb as E; symmetry; exact E).
  assert (Ed : s2 = emit (completed CLOSE_CALLBACKS) sc) by
    (injection Hd as E; symmetry; exact E).
  subst sb s2.
  destruct (@obeys_runNextTick (only QNextTick) fuel eq_refl _ _
              (done_final _ _ Ha)) as (da & Fa & _).
  destruct (@obeys_phase_loop (either QCloseCallbacks QMicrotasks)
              QCloseCallbacks fuel eq_refl eq_refl _ _
              (done_final _ _ Hc)) as (d2 & F2 & _).
  destruct (follows_untouched QNextTick eq_refl F2) as (Z & _ & K).
  exists (d0 ++ da), d2. split; [|split; [exact Z|]].
  - destruct F0 as (T0 & _). destruct Fa as (Ta & _). destruct F2 as (T2 & _).
    cbn [emit trace]. rewrite T2. cbn [emit trace]. rewrite Ta, T0.
    repeat rewrite <- app_assoc. reflexivity.
  - change (nextTick (qs sc) = pushes_of QNextTick d2).
    simpl in K. rewrite K.
    change (nextTick (qs (emit (started CLOSE_CALLBACKS) sa)))
      with (nextTick (qs sa)).
    rewrite (runNextTick_done _ _ Ha). reflexivity.
Qed.

(** *** How many invocations *)

Lemma calls_app (d1 d2 : list (event cb)) :
  calls (d1 ++ d2) = calls d1 ++ calls d2.
Proof.
  induction d1 as [|e d1 IH]; simpl; [reflexivity|].
  destruct e; simpl; congruence.
Qed.

Lemma sources_no_calls (d : list (event cb)) :
  sources no_queue d -> calls d = [].
Proof.
  intro H. induction H as [|e d He H IH]; [reflexivity|].
  destruct e; simpl in *; try assumption. discriminate.
Qed.

Section Bound.

Variable wt : cb -> nat.
Hypothesis finite : finite_callbacks body wt.

Lemma spends_seq (a b : M cb W) :
  spends wt a -> spends wt b -> spends wt (seq a b).
Proof.
  intros Ha Hb s s' H. apply seq_final in H.
  destruct H as [[H _]|(s1 & H1 & H2)].
  - apply Ha. exact H.
  - destruct (Ha _ _ (done_final _ _ H1)) as (d1 & T1 & L1).
    destruct (Hb _ _ H2) as (d2 & T2 & L2).
    exists (d1 ++ d2). split.
    + rewrite T2, T1. symmetry. apply app_assoc.
    + rewrite calls_app, length_app. lia.
Qed.

Lemma spends_log (phase msg : string) : spends wt (@log cb W phase msg).
Proof.
  intros s s' H. injection H as <-. exists [Log phase msg].
  split; [reflexivity|]. simpl. apply Nat.le_refl.
Qed.

(** Taking an item out and invoking it costs one unit of load. *)
Lemma spends_step (q : qref) (v : value cb) (rest : list (value cb))
  (name : string) (s s1 : State cb W) :
  get q (qs s) = v :: rest ->
  final (call body name v (shifted q v rest s)) = Some s1 ->
  exists d, trace s1 = trace s ++ d /\ calls d = [v] /\
            1 + load wt (qs s1) <= load wt (qs s).
Proof.
  intros Hq H.
  destruct (@obeys_call no_queue name v _ _ H) as (d & F & _).
  exists ([Shift q v (set q rest (qs s))] ++ d). split; [|split].
  - destruct F as (T & _). rewrite T, shifted_trace.
    symmetry. apply app_assoc.
  - destruct F as (_ & _ & _ & S). simpl.
    rewrite (sources_no_calls S). reflexivity.
  - pose proof (load_shifted wt _ _ Hq) as L.
    destruct (load_call finite name v (shifted q v rest s)) as [_ C].
    specialize (C _ H). lia.
Qed.

Lemma spends_drain (q : qref) (fuel : nat) : spends wt (drain body q fuel).
Proof.
  induction fuel as [|n IH]; intros s s' H; simpl in H.
  - destruct (get q (qs s)); [|discriminate]. injection H as <-.
    exists []. split; [symmetry; apply app_nil_r|simpl; apply Nat.le_refl].
  - destruct (get q (qs s)) as [|task rest] eqn:Hq.
    { injection H as <-. exists [].
      split; [symmetry; apply app_nil_r|simpl; apply Nat.le_refl]. }
    apply seq_final in H. destruct H as [[H _]|(s1 & H1 & H2)].
    + destruct (spends_step _ _ _ Hq H) as (d & T & C & L).
      exists d. split; [exact T|]. rewrite C. simpl. lia.
    + destruct (spends_step _ _ _ Hq (done_final _ _ H1)) as (d & T & C & L).
      destruct (IH _ _ H2) as (d2 & T2 & L2).
      exists (d ++ d2). split.
      * rewrite T2, T. symmetry. apply app_assoc.
      * rewrite calls_app, length_app, C. simpl. lia.
Qed.

Lemma spends_runNextTick (fuel : nat) : spends wt (runNextTick body fuel).
Proof.
  unfold runNextTick. apply spends_seq; [apply spends_log|].
  apply spends_seq; [apply spends_drain|apply spends_log].
Qed.

Lemma spends_runMicrotasks (fuel : nat) : spends wt (runMicrotasks body fuel).
Proof.
  unfold runMicrotasks. apply spends_seq; [apply spends_log|].
  apply spends_seq; [apply spends_drain|apply spends_log].
Qed.

Lemma spends_phase_loop (queue : qref) (fuel : nat) :
  spends wt (phase_loop body queue fuel).
Proof.
  induction fuel as [|n IH]; intros s s' H; simpl in H.
  - destruct (get queue (qs s)); [|discriminate]. injection H as <-.
    exists []. split; [symmetry; apply app_nil_r|simpl; apply Nat.le_refl].
  - destruct (get queue (qs s)) as [|callback rest] eqn:Hq.
    { injection H as <-. exists [].
      split; [symmetry; apply app_nil_r|simpl; apply Nat.le_refl]. }
    apply seq_final in H. destruct H as [[H _]|(s1 & H1 & H2)].
    + destruct (spends_step _ _ _ Hq H) as (d & T & C & L).
      exists d. split; [exact T|]. rewrite C. simpl. lia.
    + destruct (spends_step _ _ _ Hq (done_final _ _ H1)) as (d & T & C & L).
      destruct (spends_seq (spends_runMicrotasks n) IH _ H2) as (d2 & T2 & L2).
      exists (d ++ d2). split.
      * rewrite T2, T. symmetry. apply app_assoc.
      * rewrite calls_app, length_app, C. simpl. lia.
Qed.

Lemma spends_runPhase (phase : string) (queue : qref) (fuel : nat) :
  spends wt (runPhase body phase queue fuel).
Proof.
  unfold runPhase. apply spends_seq; [apply spends_runNextTick|].
  apply spends_seq; [apply spends_log|].
  apply spends_seq; [apply spends_phase_loop|apply spends_log].
Qed.

Lemma spends_tick (fuel : nat) : spends wt (tick body fuel).
Proof.
  unfold tick. do 5 (apply spends_seq; [apply spends_runPhase|]).
  apply spends_runPhase.
Qed.

(** When every function object weighs more than what it pushes, a tick
    ends, by return or by exception, and the invocations it makes plus the
    weight of what it leaves queued do not exceed the weight of what it
    found queued: at most that many items are invoked. *)
Theorem tick_invocations_bounded (fuel : nat) (s : State cb W)
  (Hl : load wt (qs s) <= fuel) :
  exists s' d,
    final (tick body fuel s) = Some s' /\
    trace s' = trace s ++ d /\
    List.length (calls d) + load wt (qs s') <= load wt (qs s).
Proof.
  pose proof (tick_ends finite s Hl) as N.
  destruct (tick body fuel s) as [s1|e s1|] eqn:E;
    [| |contradiction N; reflexivity].
  - destruct (@spends_tick fuel s s1) as (d & T & L);
      [rewrite E; reflexivity|].
    exists s1, d. auto.
  - destruct (@spends_tick fuel s s1) as (d & T & L);
      [rewrite E; reflexivity|].
    exists s1, d. auto.
Qed.

End Bound.

(** *** Callbacks that do not enqueue *)

Lemma call_quiet (name : string) (v : value cb) (s : State cb W) :
  quiet body v ->
  exists s1, call body name v s = Done s1 /\
             this s1 = this s /\ trace s1 = trace s.
Proof.
  intros (c & -> & Hc). destruct (Hc (world s)) as [E T].
  unfold call. rewrite E, T. simpl.
  eexists. split; [reflexivity|]. split; reflexivity.
Qed.

Lemma qs_shifted (q : qref) (v : value cb) (rest : list (value cb))
  (s : State cb W) :
  qs (shifted q v rest s) = set q rest (qs s).
Proof. reflexivity. Qed.

Lemma calls_shifted (q : qref) (v : value cb) (rest : list (value cb))
  (s : State cb W) :
  calls (trace (shifted q v rest s)) = calls (trace s) ++ [v].
Proof. rewrite shifted_trace, calls_app. reflexivity. Qed.

Lemma drain_quiet (q : qref) (l : list (value cb)) :
  forall (fuel : nat) (s : State cb W),
    get q (qs s) = l -> Forall (quiet body) l -> List.length l <= fuel ->
    exists s', drain body q fuel s = Done s' /\
               get q (qs s') = [] /\
               (forall q', q' <> q -> get q' (qs s') = get q' (qs s)) /\
               calls (trace s') = calls (trace s) ++ l.
Proof.
  induction l as [|c rest IH]; intros fuel s Hq Hl Hf.
  - exists s. rewrite drain_empty by exact Hq.
    split; [reflexivity|]. split; [exact Hq|]. split; [reflexivity|].
    symmetry. apply app_nil_r.
  - destruct fuel as [|n]; [simpl in Hf; lia|]. simpl. rewrite Hq.
    inversion Hl as [|? ? Hc Hr]; subst.
    destruct (call_quiet "task" (shifted q c rest s) Hc) as (s1 & E & T1 & T2).
    unfold seq. rewrite E.
    assert (Q1 : qs s1 = set q rest (qs s)).
    { unfold qs at 1. rewrite T1. reflexivity. }
    destruct (IH n s1) as (s' & D & G & O & C).
    { rewrite Q1. apply get_set_same. }
    { exact Hr. }
    { simpl in Hf. lia. }
    exists s'. split; [exact D|]. split; [exact G|]. split.
    + intros q' N. rewrite (O q' N), Q1. apply get_set_other. congruence.
    + rewrite C, T2, calls_shifted, <- app_assoc. reflexivity.
Qed.

Lemma calls_emit_log (phase msg : string) (s : State cb W) :
  calls (trace (emit (Log phase msg) s)) = calls (trace s).
Proof. simpl. rewrite calls_app. apply app_nil_r. Qed.

Lemma runNextTick_quiet (fuel : nat) (s : State cb W) :
  Forall (quiet body) (nextTick (qs s)) ->
  List.length (nextTick (qs s)) <= fuel ->
  exists s', runNextTick body fuel s = Done s' /\
             nextTick (qs s') = [] /\
             (forall q, q <> QNextTick -> get q (qs s') = get q (qs s)) /\
             calls (trace s') = calls (trace s) ++ nextTick (qs s).
Proof.
  intros Hl Hf. unfold runNextTick, seq, log.
  destruct (@drain_quiet QNextTick (nextTick (qs s)) fuel
              (emit (Log NEXT_TICK "nextTick phase started") s)
              eq_refl Hl Hf) as (s1 & D & G & O & C).
  rewrite D. eexists. split; [reflexivity|].
  split; [exact G|]. split; [exact O|].
  rewrite calls_emit_log, C, calls_emit_log. reflexivity.
Qed.

Lemma runMicrotasks_quiet (fuel : nat) (s : State cb W) :
  Forall (quiet body) (microtasks (qs s)) ->
  List.length (microtasks (qs s)) <= fuel ->
  exists s', runMicrotasks body fuel s = Done s' /\
             microtasks (qs s') = [] /\
             (forall q, q <> QMicrotasks -> get q (qs s') = get q (qs s)) /\
             calls (trace s') = calls (trace s) ++ microtasks (qs s).
Proof.
  intros Hl Hf. unfold runMicrotasks, seq, log.
  destruct (@drain_quiet QMicrotasks (microtasks (qs s)) fuel
              (emit (Log MICROTASKS "Microtasks phase started") s)
              eq_refl Hl Hf) as (s1 & D & G & O & C).
  rewrite D. eexists. split; [reflexivity|].
  split; [exact G|]. split; [exact O|].
  rewrite calls_emit_log, C, calls_emit_log. reflexivity.
Qed.

(** The loop of a phase over callbacks that do not enqueue: the first item,
    then the microtasks, then the other items. *)
Lemma phase_loop_quiet (queue : qref) (l : list (value cb)) :
  is_phase queue = true ->
  forall (fuel : nat) (s : State cb W),
    get queue (qs s) = l -> Forall (quiet body) l ->
    Forall (quiet body) (microtasks (qs s)) ->
    List.length l + List.length (microtasks (qs s)) <= fuel ->
    exists s', phase_loop body queue fuel s = Done s' /\
      get queue (qs s') = [] /\
      microtasks (qs s') =
        match l with [] => microtasks (qs s) | _ => [] end /\
      (forall q, q <> queue -> q <> QMicrotasks ->
                 get q (qs s') = get q (qs s)) /\
      calls (trace s') =
        calls (trace s) ++
        match l with [] => [] | c :: rest => c :: microtasks (qs s) ++ rest end.
Proof.
  intro Hp. destruct (phase_not_priority _ Hp) as (Nn & Nm & _).
  induction l as [|c rest IH]; intros fuel s Hq Hl Hm Hf.
  - exists s. rewrite phase_loop_empty by exact Hq.
    split; [reflexivity|]. split; [exact Hq|]. split; [reflexivity|].
    split; [reflexivity|]. symmetry. apply app_nil_r.
  - destruct fuel as [|n]; [simpl in Hf; lia|]. simpl. rewrite Hq.
    inversion Hl as [|? ? Hc Hr]; subst.
    destruct (call_quiet "callback" (shifted queue c rest s) Hc)
      as (s1 & E & T1 & T2).
    unfold seq at 1. rewrite E.
    assert (Q1 : qs s1 = set queue rest (qs s)).
    { unfold qs at 1. rewrite T1. reflexivity. }
    assert (M1 : microtasks (qs s1) = microtasks (qs s)).
    { rewrite Q1.
      change (get QMicrotasks (set queue rest (qs s)) = get QMicrotasks (qs s)).
      apply get_set_other. exact Nm. }
    destruct (@runMicrotasks_quiet n s1) as (s2 & R & G2 & O2 & C2).
    { rewrite M1. exact Hm. }
    { rewrite M1. simpl in Hf. lia. }
    unfold seq. rewrite R.
    assert (Q2 : get queue (qs s2) = rest).
    { rewrite (O2 queue Nm), Q1. apply get_set_same. }
    destruct (IH n s2 Q2 Hr) as (s' & L & G & M & O & C).
    { rewrite G2. constructor. }
    { change (microtasks (qs s2)) with (get QMicrotasks (qs s2)).
      change (get QMicrotasks (qs s2)) with (microtasks (qs s2)).
      rewrite G2. simpl in Hf |- *. lia. }
    exists s'. split; [exact L|]. split; [exact G|]. split.
    { rewrite M, G2. destruct rest; reflexivity. }
    split.
    { intros q N1 N2. rewrite (O q N1 N2), (O2 q N2), Q1.
      apply get_set_other. congruence. }
    rewrite C, C2, T2, calls_shifted, M1, G2.
    repeat rewrite <- app_assoc. simpl.
    destruct rest; simpl; repeat rewrite app_nil_r; reflexivity.
Qed.

Lemma runPhase_quiet (phase : string) (queue : qref) (fuel : nat)
  (s : State cb W) :
  is_phase queue = true ->
  Forall (quiet body) (nextTick (qs s)) ->
  Forall (quiet body) (microtasks (qs s)) ->
  Forall (quiet body) (get queue (qs s)) ->
  List.length (nextTick (qs s)) <= fuel ->
  List.length (get queue (qs s)) + List.length (microtasks (qs s)) <= fuel ->
  exists s', runPhase body phase queue fuel s = Done s' /\
    nextTick (qs s') = [] /\
    get queue (qs s') = [] /\
    microtasks (qs s') =
      match get queue (qs s) with [] => microtasks (qs s) | _ => [] end /\
    (forall q, is_phase q = true -> q <> queue ->
               get q (qs s') = get q (qs s)) /\
    calls (trace s') =
      calls (trace s) ++ nextTick (qs s) ++
      match get queue (qs s) with
      | [] => []
      | c :: rest => c :: microtasks (qs s) ++ rest
      end.
Proof.
  intros Hp Hn Hm Hq Fn Fq.
  destruct (phase_not_priority _ Hp) as (Nn & Nm & _).
  destruct (@runNextTick_quiet fuel s Hn Fn) as (sa & Ra & Ga & Oa & Ca).
  unfold runPhase, seq at 1. rewrite Ra. unfold seq at 1, log at 1.
  set (sb := emit (Log phase (">> " ++ phase ++ " phase started")) sa).
  assert (Qb : qs sb = qs sa) by reflexivity.
  assert (Mb : microtasks (qs sb) = microtasks (qs s)).
  { rewrite Qb. apply (Oa QMicrotasks). discriminate. }
  assert (Lb : get queue (qs sb) = get queue (qs s)).
  { rewrite Qb. apply Oa. exact Nn. }
  destruct (@phase_loop_quiet queue (get queue (qs s)) Hp fuel sb Lb Hq)
    as (sc & Rc & Gc & Mc & Oc & Cc).
  { rewrite Mb. exact Hm. }
  { rewrite Mb. exact Fq. }
  unfold seq, log. rewrite Rc. eexists. split; [reflexivity|].
  change (qs (emit (Log phase (">> " ++ phase ++ " phase completed")) sc))
    with (qs sc).
  split.
  { change (get QNextTick (qs sc) = []).
    rewrite (Oc QNextTick (not_eq_sym Nn)) by discriminate.
    rewrite Qb. exact Ga. }
  split; [exact Gc|]. split; [rewrite Mc, Mb; reflexivity|]. split.
  { intros q Hpq N. destruct (phase_not_priority _ Hpq) as (Nqn & Nqm & _).
    rewrite (Oc q N Nqm), Qb. apply Oa. exact Nqn. }
  rewrite calls_emit_log, Cc, Mb.
  unfold sb. rewrite calls_emit_log, Ca, <- app_assoc. reflexivity.
Qed.

Lemma order_from_nil (l : list (list (value cb))) :
  order_from [] l = List.concat l.
Proof.
  induction l as [|[|c rest] l IH]; simpl; [reflexivity|exact IH|reflexivity].
Qed.

Lemma order_from_concat (m : list (value cb)) (l : list (list (value cb))) :
  order_from m l =
  match List.concat l with [] => [] | c :: rest => c :: m ++ rest end.
Proof.
  induction l as [|[|c rest] l IH]; simpl; [reflexivity|exact IH|reflexivity].
Qed.

(** The phases [l] over callbacks that do not enqueue, started with
    [nextTick] empty. *)
Lemma run_phases_quiet (l : list (string * qref)) :
  forall (fuel : nat) (s : State cb W),
    NoDup (map snd l) ->
    Forall (fun q => is_phase q = true) (map snd l) ->
    nextTick (qs s) = [] ->
    Forall (quiet body) (microtasks (qs s)) ->
    (forall q, In q (map snd l) -> Forall (quiet body) (get q (qs s))) ->
    List.length (microtasks (qs s)) +
    List.length (List.concat (map (fun pq => get (snd pq) (qs s)) l)) <= fuel ->
    exists s', run_phases body l fuel s = Done s' /\
      nextTick (qs s') = [] /\
      microtasks (qs s') =
        match List.concat (map (fun pq => get (snd pq) (qs s)) l) with
        | [] => microtasks (qs s)
        | _ => []
        end /\
      (forall q, In q (map snd l) -> get q (qs s') = []) /\
      (forall q, is_phase q = true -> ~ In q (map snd l) ->
                 get q (qs s') = get q (qs s)) /\
      calls (trace s') =
        calls (trace s) ++
        order_from (microtasks (qs s)) (map (fun pq => get (snd pq) (qs s)) l).
Proof.
  induction l as [|[p q] l IH]; intros fuel s Hd Hp Hn Hm Hq Hf.
  - exists s. simpl. split; [reflexivity|]. split; [exact Hn|].
    split; [reflexivity|]. split; [intros q []|]. split; [reflexivity|].
    symmetry. apply app_nil_r.
  - simpl in Hd, Hp, Hf. inversion Hd as [|? ? Hnq Hd']; subst.
    inversion Hp as [|? ? Hpq Hp']; subst.
    rewrite length_app in Hf.
    destruct (@runPhase_quiet p q fuel s Hpq) as (s1 & R & N1 & G1 & M1 & O1 & C1).
    { rewrite Hn. constructor. }
    { exact Hm. }
    { apply Hq. left. reflexivity. }
    { rewrite Hn. simpl. lia. }
    { lia. }
    assert (E : map (fun pq => get (snd pq) (qs s1)) l =
                map (fun pq => get (snd pq) (qs s)) l).
    { apply map_ext_in. intros [p' q'] I. simpl. apply O1.
      - rewrite Forall_forall in Hp'. apply Hp'.
        apply (in_map snd) in I. exact I.
      - intro. subst q'. apply Hnq. apply (in_map snd) in I. exact I. }
    destruct (IH fuel s1 Hd' Hp' N1) as (s' & R' & N' & M' & G' & O' & C').
    { rewrite M1. destruct (get q (qs s)); [exact Hm|constructor]. }
    { intros q' I. rewrite O1.
      - apply Hq. right. exact I.
      - rewrite Forall_forall in Hp'. apply Hp'. exact I.
      - intro. subst q'. contradiction. }
    { rewrite E, M1. destruct (get q (qs s)); simpl in *; lia. }
    exists s'. simpl. unfold seq. rewrite R.
    split; [exact R'|]. split; [exact N'|]. rewrite E in M', C'.
    split.
    { rewrite M', M1. destruct (get q (qs s)); simpl; [reflexivity|].
      destruct (List.concat (map (fun pq => get (snd pq) (qs s)) l));
        reflexivity. }
    split.
    { intros q' [<-|I].
      - rewrite O'; [exact G1|exact Hpq|exact Hnq].
      - apply G'. exact I. }
    split.
    { intros q' Hpq' Nin. rewrite O'.
      - apply O1; [exact Hpq'|]. intro. subst q'. apply Nin. left. reflexivity.
      - exact Hpq'.
      - intro I. apply Nin. right. exact I. }
    rewrite C', C1, M1, Hn. simpl.
    destruct (get q (qs s)) as [|c rest]; simpl.
    + rewrite app_nil_r. reflexivity.
    + rewrite order_from_nil, <- app_assoc. simpl.
      rewrite <- app_assoc. reflexivity.
Qed.


End Properties.

(** ** The scenarios, run *)

Import Script Scenarios.

(** The model prints what [index.js] documents for its first tick. *)
Example driver_first_tick :
  console (ended (tick body 5 driver)) = documented_output.
Proof. vm_compute. reflexivity. Qed.

(** The later ticks of the driver find nothing to invoke. *)
Example driver_second_tick :
  order (ended (ticks body 2 5 driver)) = order (ended (tick body 5 driver)).
Proof. vm_compute. reflexivity. Qed.

(** Scripted callbacks are finite: a tick over them ends once the fuel
    covers the weight of what is queued. *)
Lemma script_finite : finite_callbacks Script.body weight.
Proof.
  intros [l acts fails] w. unfold pushed_weight. simpl.
  apply Nat.lt_succ_r.
  induction acts as [|[q v] acts IH]; simpl; [apply Nat.le_refl|].
  destruct v; simpl; lia.
Qed.

Lemma scripted_tick_ends (fuel : nat) (s : State job unit) :
  load weight (qs s) <= fuel -> tick Script.body fuel s <> Timeout.
Proof. apply (tick_ends script_finite). Qed.

Example driver_weight : load weight (qs driver) = 21.
Proof. reflexivity. Qed.

Ltac no_precedes :=
  let l1 := fresh "l1" in
  let l2 := fresh "l2" in
  let l3 := fresh "l3" in
  let E := fresh "E" in
  intros (l1 & l2 & l3 & E);
  repeat (destruct l1 as [|? l1]; simpl in E; try discriminate E;
          try (injection E as ? E));
  repeat (destruct l2 as [|? l2]; simpl in E; try discriminate E;
          try (injection E as ? E));
  try discriminate.



(** C2 fails as stated: the timer [T] is taken out while the microtask [M]
    is queued, and the timer [B] is taken out while [N], pushed into
    [nextTick] by the timer [A], is queued. *)
Lemma phase_item_taken_with_priority_items_queued :
  (exists x,
     snapshots_of QTimers (trace (ended (tick body 3 timer_and_microtask)))
       = [x] /\
     microtasks x = [say "M"]) /\
  (exists x1 x2,
     snapshots_of QTimers (trace (ended (tick body 3 a_pushes_nextTick)))
       = [x1; x2] /\
     nextTick x2 = [say "N"]).
Proof.
  split.
  - eexists. split; vm_compute; reflexivity.
  - eexists. eexists. split; vm_compute; reflexivity.
Qed.

Lemma removals_in_phase_witness :
  exists d,
    trace (ended (runPhase body TIMERS QTimers 3 a_pushes_nextTick)) =
      trace a_pushes_nextTick ++ d /\
    removals_ok (snapshots_of QTimers d).
Proof.
  apply (@removals_in_phase _ _ body TIMERS QTimers 3);
    [reflexivity|vm_compute; reflexivity].
Defined.




(** C4 fails as stated: [queueTimer(undefined)] returns and the value is in
    the queue. *)
Lemma queueTimer_accepts_undefined :
  exists s',
    queueTimer Undefined start = Done s' /\
    timers (qs s') = [Undefined] /\
    timers (qs s') <> timers (qs start).
Proof.
  eexists. split; [reflexivity|]. split; [reflexivity|]. discriminate.
Qed.

Lemma enqueue_accepts_any_value_witness :
  appends_only QTimers Undefined (enqueue QTimers Undefined) start /\
  tick Script.body 3 (after_enqueues [ (QTimers, Undefined) ]) =
    Raised (TypeError "callback is not a function")
           (ended (tick Script.body 3 (after_enqueues [ (QTimers, Undefined) ]))).
Proof.
  destruct (@enqueue_accepts_any_value _ _ Script.body QTimers Undefined start
              eq_refl) as (A & _ & _).
  split; [exact A|]. vm_compute. reflexivity.
Defined.




Lemma throw_leaves_tick_witness :
  exists d,
    trace (ended (tick Script.body 3 a_throws)) = trace a_throws ++ d /\
    tick Script.body 3 a_throws =
      Raised (UserError "A") (ended (tick Script.body 3 a_throws)) /\
    timers (qs (ended (tick Script.body 3 a_throws))) = [say "B"] /\
    check (qs (ended (tick Script.body 3 a_throws))) = [say "C"].
Proof.
  assert (H : final (tick Script.body 3 a_throws) =
              Some (ended (tick Script.body 3 a_throws)))
    by (vm_compute; reflexivity).
  destruct (throw_leaves_tick _ _ _ H) as (d & T & _).
  exists d. split; [exact T|]. repeat split; vm_compute; reflexivity.
Defined.

Lemma tick_empty_witness :
  tick Script.body 0 start = Done (mkState constructor tt idle_tick).
Proof.
  exact (proj1 (@tick_empty _ _ Script.body 0 start (fun q => match q with
                | QNextTick | _ => eq_refl end))).
Defined.


(** ** More scenarios, run *)

Import MoreScenarios.

Lemma drains_keep_other_queues_witness :
  check (qs (ended (runNextTick Script.body 3 nextTick_pushes_check))) =
    [say "K1"] /\
  check (qs (ended (runMicrotasks Script.body 3 microtask_pushes_check))) =
    [say "K2"] /\
  (exists d,
     trace (ended (runNextTick Script.body 3 nextTick_pushes_check)) =
       trace nextTick_pushes_check ++ d /\
     shifts_of QCheck d = [] /\ pushes_of QCheck d = [say "K1"]) /\
  (exists d,
     trace (ended (runMicrotasks Script.body 3 microtask_pushes_check)) =
       trace microtask_pushes_check ++ d /\
     shifts_of QCheck d = [] /\ pushes_of QCheck d = [say "K2"]).
Proof.
  assert (Hn : final (runNextTick Script.body 3 nextTick_pushes_check) =
               Some (ended (runNextTick Script.body 3 nextTick_pushes_check)))
    by (vm_compute; reflexivity).
  assert (Hm : final (runMicrotasks Script.body 3 microtask_pushes_check) =
               Some (ended (runMicrotasks Script.body 3
                              microtask_pushes_check)))
    by (vm_compute; reflexivity).
  destruct (@drains_keep_other_queues _ _ Script.body 3 _ _ _ _ QCheck Hn Hm)
    as ((d1 & T1 & K1) & (d2 & T2 & K2)).
  destruct (K1 ltac:(discriminate)) as (Z1 & G1).
  destruct (K2 ltac:(discriminate)) as (Z2 & G2).
  assert (C1 : check (qs (ended (runNextTick Script.body 3
                                   nextTick_pushes_check))) = [say "K1"])
    by (vm_compute; reflexivity).
  assert (C2 : check (qs (ended (runMicrotasks Script.body 3
                                   microtask_pushes_check))) = [say "K2"])
    by (vm_compute; reflexivity).
  split; [exact C1|]. split; [exact C2|]. split.
  - exists d1. split; [exact T1|]. split; [exact Z1|].
    change (get QCheck (qs (ended (runNextTick Script.body 3
                                     nextTick_pushes_check)))
            = [] ++ pushes_of QCheck d1) in G1.
    transitivity ([] ++ pushes_of QCheck d1); [reflexivity|].
    rewrite <- G1. exact C1.
  - exists d2. split; [exact T2|]. split; [exact Z2|].
    change (get QCheck (qs (ended (runMicrotasks Script.body 3
                                     microtask_pushes_check)))
            = [] ++ pushes_of QCheck d2) in G2.
    transitivity ([] ++ pushes_of QCheck d2); [reflexivity|].
    rewrite <- G2. exact C2.
Defined.

Lemma flush_leaves_witness :
  exists s',
    runNextTickAndMicrotasks Script.body 3 microtask_nested = Done s' /\
    microtasks (qs s') = [] /\ nextTick (qs s') = [say "N3"].
Proof.
  assert (H : runNextTickAndMicrotasks Script.body 3 microtask_nested =
              Done (ended (runNextTickAndMicrotasks Script.body 3
                             microtask_nested)))
    by (vm_compute; reflexivity).
  destruct (flush_leaves _ _ _ H) as (s1 & d1 & d2 & _ & _ & _ & _ & M & _).
  eexists. split; [exact H|]. split; [exact M|]. vm_compute. reflexivity.
Defined.

Lemma runPhase_keeps_other_phases_witness :
  exists d,
    trace (ended (runPhase Script.body POLL QPoll 3 poll_pushes)) =
      trace poll_pushes ++ d /\
    shifts_of QTimers d = [] /\
    get QTimers (qs (ended (runPhase Script.body POLL QPoll 3 poll_pushes))) =
      get QTimers (qs poll_pushes) ++ pushes_of QTimers d.
Proof.
  apply (@runPhase_keeps_other_phases _ _ Script.body POLL QPoll QTimers 3);
    [reflexivity|discriminate|vm_compute; reflexivity].
Defined.

Lemma running_stays_false_witness :
  running (this (ended (seq (enqueue_all [ (QTimers, failing "A");
                                           (QTimers, say "B") ])
                            (ticks Script.body 2 3)
                            (mkState constructor tt [])))) = false.
Proof.
  apply (@running_stays_false _ _ Script.body
           [ (QTimers, failing "A"); (QTimers, say "B") ] 2 3 tt).
  vm_compute. reflexivity.
Defined.

Lemma microtasks_alone_never_run_witness :
  exists s',
    ticks Script.body 3 0 microtasks_alone = Done s' /\
    this s' = this microtasks_alone /\ world s' = world microtasks_alone /\
    calls (trace s') = calls (trace microtasks_alone).
Proof.
  apply microtasks_alone_never_run.
  intros q N. destruct q; try reflexivity. contradiction N. reflexivity.
Defined.


Lemma tick_leaves_late_nextTick_witness :
  exists d2,
    shifts_of QNextTick d2 = [] /\
    pushes_of QNextTick d2 = [say "N"] /\
    nextTick (qs (ended (tick Script.body 3 close_pushes_nextTick))) =
      [say "N"].
Proof.
  assert (H : tick Script.body 3 close_pushes_nextTick =
              Done (ended (tick Script.body 3 close_pushes_nextTick)))
    by (vm_compute; reflexivity).
  assert (C : nextTick (qs (ended (tick Script.body 3
                                     close_pushes_nextTick))) = [say "N"])
    by (vm_compute; reflexivity).
  destruct (tick_leaves_late_nextTick _ _ _ H) as (d1 & d2 & _ & Z & N).
  exists d2. split; [exact Z|]. split; [|exact C].
  rewrite <- N. exact C.
Defined.

Lemma tick_invocations_bounded_witness :
  exists s' d,
    final (tick Script.body 21 driver) = Some s' /\
    trace s' = trace driver ++ d /\
    List.length (calls d) + load weight (qs s') <= load weight (qs driver).
Proof.
  apply (tick_invocations_bounded script_finite). vm_compute. lia.
Defined.

Lemma readme_quiet : all_quiet Script.body (qs readme).
Proof.
  intro q. destruct q; simpl; repeat constructor;
    eexists; (split; [reflexivity|]); intro w; split; reflexivity.
Qed.

